(** * Markov chains from scratch: a shallow embedding of
      [notebooks/misc/MarkovChains.ipynb]

    The notebook has four pieces of code: the tokenizer loop that turns the
    downloaded text into the list [words], the order-1 and order-2 chain
    builders that fill the dictionary [chain], and the walker
    [markov_tweet] that samples a tweet-length phrase.

    Python 2 [str] values are byte strings: they are modelled by [string]
    (a list of 8-bit [ascii]), and [len] by [String.length].  The dictionary
    [chain] is a [gmap]; Python exceptions are values of [exn] carried by
    the error monad [result].  The module [random] is a stream of natural
    numbers read through a cursor. *)

From Stdlib Require Import ZArith Ascii.
From stdpp Require Import gmap strings list fin_maps sorting.

(** ** Exceptions and the error monad *)

Inductive exn : Type :=
| IndexError   (* sequence index out of range *)
| KeyError     (* dictionary key absent *)
| ValueError.  (* empty range for randrange() *)

Inductive result (A : Type) : Type :=
| Ok (a : A)
| Raise (e : exn).

Arguments Ok {A} a.
Arguments Raise {A} e.

#[global] Instance result_ret : MRet result := λ A a, Ok a.
#[global] Instance result_bind : MBind result := λ A B k m,
  match m with
  | Ok a => k a
  | Raise e => Raise e
  end.

(** [for x in l: s = body(s, x)], stopping at the first exception. *)
Fixpoint for_each {S A : Type} (body : S → A → result S) (l : list A) (s : S)
  : result S :=
  match l with
  | [] => Ok s
  | x :: l' => s' ← body s x ; for_each body l' s'
  end.

(** [enumerate(l)], counting from [i]. *)
Fixpoint enumerate_from {A : Type} (i : nat) (l : list A) : list (nat * A) :=
  match l with
  | [] => []
  | x :: l' => (i, x) :: enumerate_from (S i) l'
  end.

Definition enumerate {A : Type} (l : list A) : list (nat * A) :=
  enumerate_from 0 l.

(** [l[i]] for a Python integer [i]: negative indices count from the end,
    anything outside [-len(l), len(l)) raises [IndexError]. *)
Definition getitem {A : Type} (l : list A) (i : Z) : result A :=
  let n := Z.of_nat (length l) in
  let j := if (i <? 0)%Z then (n + i)%Z else i in
  if (j <? 0)%Z then Raise IndexError
  else match l !! Z.to_nat j with
       | Some x => Ok x
       | None => Raise IndexError
       end.

(** ** The tokenizer (first code cell) *)

Definition CR : ascii := ascii_of_nat 13.
Definition LF : ascii := ascii_of_nat 10.
Definition SP : ascii := ascii_of_nat 32.
Definition TAB : ascii := ascii_of_nat 9.

(** Iterating over the response object yields its lines, each one with its
    terminating ['\n'] (the last line may lack it). *)
Fixpoint lines (text : string) : list string :=
  match text with
  | EmptyString => []
  | String c text' =>
      if decide (c = LF) then String c EmptyString :: lines text'
      else match lines text' with
           | [] => [String c EmptyString]
           | l :: ls => String c l :: ls
           end
  end.

(** [line.decode('utf-8-sig', errors='ignore').encode('ascii', errors='ignore')]:
    every byte below 128 is a character of its own and survives both steps;
    every byte from 128 up is part of a byte-order mark, of a non-ASCII
    character or of a malformed sequence, and is dropped by one of them. *)
Definition is_ascii (c : ascii) : bool :=
  match c with
  | Ascii _ _ _ _ _ _ _ b7 => negb b7
  end.

Fixpoint to_ascii (s : string) : string :=
  match s with
  | EmptyString => EmptyString
  | String c s' => if is_ascii c then String c (to_ascii s') else to_ascii s'
  end.

(** [s.replace(old, new)] for one-character [old] and [new]. *)
Fixpoint replace (old new : ascii) (s : string) : string :=
  match s with
  | EmptyString => EmptyString
  | String c s' =>
      String (if decide (c = old) then new else c) (replace old new s')
  end.

(** [s.split(sep)] for a one-character separator: one more piece than there
    are separators, empty pieces kept. *)
Fixpoint split (sep : ascii) (s : string) : list string :=
  match s with
  | EmptyString => [EmptyString]
  | String c s' =>
      if decide (c = sep) then EmptyString :: split sep s'
      else match split sep s' with
           | [] => [String c EmptyString]
           | p :: ps => String c p :: ps
           end
  end.

(** [[word for word in new_words if word not in ['', ' ']]] *)
Definition keep_word (word : string) : bool :=
  negb (bool_decide (word ∈ [""; " "])).

Definition line_words (line : string) : list string :=
  let line := to_ascii line in
  let line := replace LF SP (replace CR SP line) in
  let new_words := split SP line in
  List.filter keep_word new_words.

Definition read_words (text : string) : list string :=
  fold_left (λ words line, words ++ line_words line) (lines text) [].

(** ** The chain builders (second and fourth code cells) *)

(** The common tail of both loop bodies:
    [if key not in chain: chain[key] = [word] else: chain[key].append(word)] *)
Definition record `{Countable K} (key : K) (word : string)
    (chain : gmap K (list string)) : gmap K (list string) :=
  match chain !! key with
  | None => <[key := [word]]> chain
  | Some successors => <[key := successors ++ [word]]> chain
  end.

Definition chain1_body (words : list string) (n_words : nat)
    (chain : gmap string (list string)) (it : nat * string)
  : result (gmap string (list string)) :=
  let '(i, key) := it in
  if decide (i + 1 < n_words) then        (* n_words > (i + 1) *)
    word ← getitem words (Z.of_nat i + 1)%Z ;
    Ok (record key word chain)
  else Ok chain.

Definition build_chain1 (words : list string)
  : result (gmap string (list string)) :=
  let n_words := length words in
  for_each (chain1_body words n_words) (enumerate words) ∅.

Definition chain2_body (words : list string) (n_words : nat)
    (chain : gmap (string * string) (list string)) (it : nat * string)
  : result (gmap (string * string) (list string)) :=
  let '(i, key1) := it in
  if decide (i + 2 < n_words) then        (* n_words > i + 2 *)
    key2 ← getitem words (Z.of_nat i + 1)%Z ;
    word ← getitem words (Z.of_nat i + 2)%Z ;
    Ok (record (key1, key2) word chain)
  else Ok chain.

Definition build_chain2 (words : list string)
  : result (gmap (string * string) (list string)) :=
  let n_words := length words in
  for_each (chain2_body words n_words) (enumerate words) ∅.

(** ** The random source *)

(** The generator behind the module [random]: the stream [draws] of raw
    outcomes and the number [cursor] of outcomes already consumed.  Any
    sequence of results that [randint] and [choice] can produce is produced
    by some stream. *)
Record rng : Type := Rng { draws : nat → nat; cursor : nat }.

Definition draw (g : rng) : nat * rng :=
  (draws g (cursor g), Rng (draws g) (S (cursor g))).

(** [random.randint(a, b)]: an integer of [[a, b]], both ends included;
    an empty range raises [ValueError]. *)
Definition randint (a b : Z) (g : rng) : result (Z * rng) :=
  if (b <? a)%Z then Raise ValueError
  else let '(x, g') := draw g in
       Ok ((a + Z.of_nat x `mod` (b - a + 1))%Z, g').

(** [random.choice(seq)]: an element of [seq]; an empty [seq] raises
    [IndexError]. *)
Definition choice {A : Type} (seq : list A) (g : rng) : result (A * rng) :=
  match seq with
  | [] => Raise IndexError
  | _ => let '(x, g') := draw g in
         match seq !! (x `mod` length seq) with
         | Some y => Ok (y, g')
         | None => Raise IndexError
         end
  end.

(** ** The walker (seventh code cell, and the sixth with global variables) *)

(** [d[k]] for a dictionary. *)
Definition dict_getitem `{Countable K} {V : Type} (d : gmap K V) (k : K)
  : result V :=
  match d !! k with
  | Some v => Ok v
  | None => Raise KeyError
  end.

Definition target : nat := 140.

(** The local variables of [markov_tweet] while the loop runs; [w] is
    unbound ([None]) until the body has run once. *)
Record walk : Type := Walk {
  key : string * string;
  tweet : string;
  w : option string
}.

(** [r = random.randint(0, len(words) - 1)] *)
Definition start_index (words : list string) (g : rng) : result (Z * rng) :=
  randint 0 (Z.of_nat (length words) - 1) g.

(** The three statements before the loop. *)
Definition start (words : list string) (g : rng) : result (walk * rng) :=
  '(r, g') ← start_index words g ;
  key0 ← getitem words r ;
  key1 ← getitem words (r + 1)%Z ;
  Ok (Walk (key0, key1) (key0 +:+ " " +:+ key1) None, g').

(** One run of the loop body. *)
Definition walk_body (chain : gmap (string * string) (list string))
    (st : walk) (g : rng) : result (walk * rng) :=
  successors ← dict_getitem chain (key st) ;
  '(w, g') ← choice successors g ;
  Ok (Walk ((key st).2, w) (tweet st +:+ " " +:+ w) (Some w), g').

(** [while len(tweet) < 140: ...], run for at most [fuel] iterations;
    [None] when the loop is still running after that many. *)
Fixpoint walk_loop (fuel : nat) (chain : gmap (string * string) (list string))
    (st : walk) (g : rng) : option (result (walk * rng)) :=
  if decide (String.length (tweet st) < target) then
    match fuel with
    | O => None
    | S fuel' =>
        match walk_body chain st g with
        | Ok (st', g') => walk_loop fuel' chain st' g'
        | Raise e => Some (Raise e)
        end
    end
  else Some (Ok (st, g)).

(** [print s] writes [s] and a newline. *)
Definition print (s : string) : string := s +:+ String LF EmptyString.

(** [markov_tweet(chain, words)]: what it writes to the standard output and
    the generator it leaves.  Every iteration makes [tweet] longer, so
    [target] iterations are enough (see [markov_tweet_total]). *)
Definition markov_tweet (chain : gmap (string * string) (list string))
    (words : list string) (g : rng) : option (result (string * rng)) :=
  match start words g with
  | Raise e => Some (Raise e)
  | Ok (st, g') =>
      match walk_loop target chain st g' with
      | None => None
      | Some (Raise e) => Some (Raise e)
      | Some (Ok (st', g'')) =>
          Some (Ok (print (tweet st' +:+ String LF EmptyString), g''))
      end
  end.

(** ** Vocabulary of the statements *)

(** The characters of a byte string, in order. *)
Fixpoint chars (s : string) : list ascii :=
  match s with
  | EmptyString => []
  | String c s' => c :: chars s'
  end.

(** The line and word separators of the tokenizer. *)
Definition is_separator (c : ascii) : Prop := c = SP ∨ c = CR ∨ c = LF.

(** Whitespace in the sense of Python's [str.isspace] on byte strings:
    tab, line feed, vertical tab, form feed, carriage return and space. *)
Definition whitespace_only (text : string) : Prop :=
  Forall (λ c, Ascii.is_space c = true) (chars text).

(** The indices [i] of the corpus [C] at which the context occurs and is
    followed by a token ([i + N < length C]), in increasing order. *)
Definition occurrences1 (C : list string) (K : string) : list nat :=
  filter (λ i, C !! i = Some K ∧ i + 1 < length C) (seq 0 (length C)).

Definition occurrences2 (C : list string) (K : string * string) : list nat :=
  filter (λ i, C !! i = Some K.1 ∧ C !! (i + 1) = Some K.2 ∧ i + 2 < length C)
         (seq 0 (length C)).

(** The tokens [C[i + N]] for the indices [i] of [occs], in that order. *)
Definition tokens_after (N : nat) (C : list string) (occs : list nat)
  : list string :=
  omap (λ i, C !! (i + N)) occs.

(** What one iteration contributes: nothing, or a key with its successor. *)
Definition observe `{Countable K} (o : option (K * string))
    (chain : gmap K (list string)) : gmap K (list string) :=
  match o with
  | Some (k, word) => record k word chain
  | None => chain
  end.

(** The successors contributed to [key] by the iterations [its]. *)
Definition observed `{Countable K} (obs : nat → option (K * string))
    (key : K) (its : list nat) : list string :=
  omap (λ i, '(k, word) ← obs i; if decide (k = key) then Some word else None)
       its.

(** A successor list extended by further successors; an absent key becomes
    present with the first of them. *)
Definition extend (o : option (list string)) (more : list string)
  : option (list string) :=
  match more with
  | [] => o
  | _ => Some (default [] o ++ more)
  end.

Definition obs1 (words : list string) (i : nat) : option (string * string) :=
  if decide (i + 1 < length words) then
    key ← words !! i; word ← words !! (i + 1); Some (key, word)
  else None.

Definition obs2 (words : list string) (i : nat)
  : option (string * string * string) :=
  if decide (i + 2 < length words) then
    key1 ← words !! i; key2 ← words !! (i + 1); word ← words !! (i + 2);
    Some ((key1, key2), word)
  else None.

(** The states the loop of [markov_tweet] passes through: [reaches chain st
    g st' g'] when some number of successful iterations, each entered with
    [len(tweet) < 140], leads from [st], [g] to [st'], [g']. *)
Inductive reaches (chain : gmap (string * string) (list string))
  : walk → rng → walk → rng → Prop :=
| reaches_here st g : reaches chain st g st g
| reaches_step st g st1 g1 st' g' :
    String.length (tweet st) < target →
    walk_body chain st g = Ok (st1, g1) →
    reaches chain st1 g1 st' g' →
    reaches chain st g st' g'.

(** A generator whose every outcome is [x]. *)
Definition constant_rng (x : nat) : rng := Rng (λ _, x) 0.

Definition fox : string := "the brown fox jumped over the lazy dog".

(** The line as it is split: [line] after the decode/encode step and the
    two [replace] calls. *)
Definition normalize (line : string) : string :=
  replace LF SP (replace CR SP (to_ascii line)).

(** A well-formed token: not empty, ASCII only, no separator in it. *)
Definition is_token (word : string) : Prop :=
  word ≠ "" ∧ ∀ c, c ∈ chars word → is_ascii c = true ∧ ¬ is_separator c.

(** [tweet] after [tweet += ' ' + w] for each [w] of [ws] in turn. *)
Fixpoint append_words (tweet : string) (ws : list string) : string :=
  match ws with
  | [] => tweet
  | w :: ws' => append_words (tweet +:+ " " +:+ w) ws'
  end.

(** [a], [b], [c] stand next to each other, in this order, in [l]. *)
Definition trigram (l : list string) (a b c : string) : Prop :=
  ∃ j, l !! j = Some a ∧ l !! (j + 1) = Some b ∧ l !! (j + 2) = Some c.

(** [a], [b] stand next to each other, in this order, in [l]. *)
Definition bigram (l : list string) (a b : string) : Prop :=
  ∃ j, l !! j = Some a ∧ l !! (j + 1) = Some b.

(** The tokens [ws] can be sampled one after the other from the order-2
    chain, starting from the context [k]. *)
Fixpoint sampled (chain : gmap (string * string) (list string))
    (k : string * string) (ws : list string) : Prop :=
  match ws with
  | [] => True
  | w :: ws' =>
      (∃ successors, chain !! k = Some successors ∧ w ∈ successors) ∧
      sampled chain (k.2, w) ws'
  end.

(** ** The order-1 walker (third code cell) *)

(** The variables of the cell while the loop runs; [w2] is unbound
    ([None]) until the body has run once. *)
Record walk1 : Type := Walk1 {
  w1 : string;
  tweet1 : string;
  w2 : option string
}.

(** [w1 = random.choice(words)], [tweet = w1] *)
Definition start1 (words : list string) (g : rng) : result (walk1 * rng) :=
  '(w, g') ← choice words g ;
  Ok (Walk1 w w None, g').

Definition walk1_body (chain : gmap string (list string))
    (st : walk1) (g : rng) : result (walk1 * rng) :=
  successors ← dict_getitem chain (w1 st) ;
  '(w, g') ← choice successors g ;
  Ok (Walk1 w (tweet1 st +:+ " " +:+ w) (Some w), g').

Fixpoint walk1_loop (fuel : nat) (chain : gmap string (list string))
    (st : walk1) (g : rng) : option (result (walk1 * rng)) :=
  if decide (String.length (tweet1 st) < target) then
    match fuel with
    | O => None
    | S fuel' =>
        match walk1_body chain st g with
        | Ok (st', g') => walk1_loop fuel' chain st' g'
        | Raise e => Some (Raise e)
        end
    end
  else Some (Ok (st, g)).

(** The whole cell: what it prints and the generator it leaves. *)
Definition tweet_order1 (chain : gmap string (list string))
    (words : list string) (g : rng) : option (result (string * rng)) :=
  match start1 words g with
  | Raise e => Some (Raise e)
  | Ok (st, g') =>
      match walk1_loop target chain st g' with
      | None => None
      | Some (Raise e) => Some (Raise e)
      | Some (Ok (st', g'')) => Some (Ok (print (tweet1 st'), g''))
      end
  end.

(** The tokens [ws] can be sampled one after the other from the order-1
    chain, starting from the word [k]. *)
Fixpoint sampled1 (chain : gmap string (list string))
    (k : string) (ws : list string) : Prop :=
  match ws with
  | [] => True
  | w :: ws' =>
      (∃ successors, chain !! k = Some successors ∧ w ∈ successors) ∧
      sampled1 chain w ws'
  end.

(** The word made of [n] letters x. *)
Fixpoint letters (n : nat) : string :=
  match n with
  | O => ""
  | S n' => "x" +:+ letters n'
  end.

(** * Properties of the tokenizer *)

Lemma read_words_concat (text : string) :
  read_words text = concat (line_words <$> lines text).
Proof.
  unfold read_words.
  enough (∀ ls acc, fold_left (λ words line, words ++ line_words line) ls acc
                    = acc ++ concat (line_words <$> ls)) as H by apply H.
  induction ls as [|l ls IH]; intros acc; simpl.
  - by rewrite app_nil_r.
  - by rewrite IH, app_assoc.
Qed.

(** A line of the text is made of characters of the text. *)
Lemma lines_chars (text line : string) (c : ascii) :
  line ∈ lines text → c ∈ chars line → c ∈ chars text.
Proof.
  revert line. induction text as [|a text IH]; intros line; simpl.
  - by intros ?%elem_of_nil.
  - case_decide as Ha.
    + intros [->|Hl]%elem_of_cons; simpl.
      * intros [->|?%elem_of_nil]%elem_of_cons; [left|done].
      * intros Hc. right. eauto.
    + destruct (lines text) as [|l ls] eqn:Hls.
      * intros ->%list_elem_of_singleton. simpl.
        intros [->|?%elem_of_nil]%elem_of_cons; [left|done].
      * intros [->|Hl]%elem_of_cons; simpl.
        -- intros [->|Hc]%elem_of_cons; [left|right].
           apply (IH l); [left|done].
        -- intros Hc. right. apply (IH line); [by right|done].
Qed.

Lemma to_ascii_chars (s : string) (c : ascii) :
  c ∈ chars (to_ascii s) ↔ c ∈ chars s ∧ is_ascii c = true.
Proof.
  induction s as [|a s IH]; simpl.
  - rewrite elem_of_nil. tauto.
  - destruct (is_ascii a) eqn:Ha; simpl; rewrite ?elem_of_cons, IH.
    + naive_solver.
    + split; [tauto|]. intros [[->|?] Hc]; [congruence|done].
Qed.

Lemma replace_chars (old new : ascii) (s : string) (c : ascii) :
  c ∈ chars (replace old new s) ↔
  (c = new ∧ old ∈ chars s) ∨ (c ≠ old ∧ c ∈ chars s).
Proof.
  induction s as [|a s IH]; simpl.
  - rewrite !elem_of_nil. tauto.
  - rewrite !elem_of_cons, IH. case_decide; naive_solver.
Qed.

Lemma split_nonempty (sep : ascii) (s : string) : split sep s ≠ [].
Proof.
  destruct s as [|a s]; simpl; [done|].
  case_decide; [done|]. by destruct (split sep s).
Qed.

(** The pieces of [split] are made of characters of the string, and the
    separator is in none of them. *)
Lemma split_chars (sep : ascii) (s piece : string) (c : ascii) :
  piece ∈ split sep s → c ∈ chars piece → c ∈ chars s ∧ c ≠ sep.
Proof.
  revert piece. induction s as [|a s IH]; intros piece; simpl.
  - intros ->%list_elem_of_singleton. by intros ?%elem_of_nil.
  - case_decide as Ha.
    + intros [->|Hp]%elem_of_cons; [by intros ?%elem_of_nil|].
      intros Hc. destruct (IH _ Hp Hc). split; [by right|done].
    + destruct (split sep s) as [|q qs] eqn:Hq.
      { by destruct (split_nonempty sep s). }
      intros [->|Hp]%elem_of_cons; simpl.
      * intros [->|Hc]%elem_of_cons; [split; [left|done]|].
        destruct (IH q) with (1 := list_elem_of_here q qs) (2 := Hc).
        split; [by right|done].
      * intros Hc. destruct (IH piece) with (2 := Hc); [by right|].
        split; [by right|done].
Qed.

(** A string of separators only splits into empty pieces. *)
Lemma split_all_sep (sep : ascii) (s piece : string) :
  Forall (λ c, c = sep) (chars s) → piece ∈ split sep s → piece = "".
Proof.
  revert piece. induction s as [|a s IH]; intros piece; simpl.
  - by intros _ ->%list_elem_of_singleton.
  - intros [-> Hs]%Forall_cons. rewrite decide_True by done.
    intros [->|Hp]%elem_of_cons; [done|]. by apply IH.
Qed.

Lemma keep_word_spec (word : string) :
  keep_word word = true ↔ word ≠ "" ∧ word ≠ " ".
Proof.
  unfold keep_word. rewrite negb_true_iff, bool_decide_eq_false.
  rewrite !elem_of_cons, elem_of_nil. tauto.
Qed.

Lemma line_words_elem (line word : string) :
  word ∈ line_words line →
  keep_word word = true ∧
  ∀ c, c ∈ chars word →
       c ∈ chars line ∧ is_ascii c = true ∧ c ≠ SP ∧ c ≠ CR ∧ c ≠ LF.
Proof.
  unfold line_words.
  rewrite list_elem_of_In, filter_In, <- list_elem_of_In.
  intros [Hw Hk]. split; [done|]. intros c Hc.
  destruct (split_chars _ _ _ _ Hw Hc) as [Hin Hsp].
  apply replace_chars in Hin as [[-> _]|[Hlf Hin]]; [done|].
  apply replace_chars in Hin as [[-> _]|[Hcr Hin]]; [done|].
  apply to_ascii_chars in Hin as [Hin Hasc]. done.
Qed.

Lemma line_words_separators (line : string) :
  Forall is_separator (chars line) → line_words line = [].
Proof.
  intros Hline. unfold line_words.
  assert (Forall (λ c, c = SP)
            (chars (replace LF SP (replace CR SP (to_ascii line))))) as Hsp.
  { apply Forall_forall. intros c Hc.
    apply replace_chars in Hc as [[-> _]|[Hlf Hc]]; [done|].
    apply replace_chars in Hc as [[-> _]|[Hcr Hc]]; [done|].
    apply to_ascii_chars in Hc as [Hc _].
    rewrite Forall_forall in Hline.
    destruct (Hline c Hc) as [?|[?|?]]; done. }
  assert (Forall (λ piece, piece = "")
            (split SP (replace LF SP (replace CR SP (to_ascii line))))) as Hall.
  { apply Forall_forall. intros piece. by apply split_all_sep. }
  induction Hall as [|piece pieces -> _ IH]; [done|]. simpl. exact IH.
Qed.

Lemma concat_nil {A : Type} (ls : list (list A)) :
  Forall (λ l, l = []) ls → concat ls = [].
Proof. induction 1 as [|l ls -> _ IH]; [done|]. exact IH. Qed.



(** * Properties of the chain builders *)

Lemma getitem_nat {A : Type} (l : list A) (i : nat) :
  getitem l (Z.of_nat i) =
  match l !! i with Some x => Ok x | None => Raise IndexError end.
Proof.
  unfold getitem.
  destruct (Z.ltb_spec (Z.of_nat i) 0) as [?|_]; [lia|].
  destruct (Z.ltb_spec (Z.of_nat i) 0) as [?|_]; [lia|].
  by rewrite Nat2Z.id.
Qed.

Lemma getitem_ge {A : Type} (l : list A) (i : nat) :
  length l ≤ i → getitem l (Z.of_nat i) = Raise IndexError.
Proof. intros Hi. by rewrite getitem_nat, lookup_ge_None_2. Qed.

Lemma omap_filter {A B : Type} (P : A → Prop) `{∀ x, Decision (P x)}
    (f g : A → option B) (l : list A) :
  (∀ x, f x = if decide (P x) then g x else None) →
  omap f l = omap g (filter P l).
Proof.
  intros Hf. induction l as [|x l IH]; [done|].
  rewrite filter_cons. cbn [omap list_omap]. rewrite Hf.
  case_decide; cbn [omap list_omap]; by rewrite <- IH.
Qed.

Lemma filter_none {A : Type} (P : A → Prop) `{∀ x, Decision (P x)}
    (l : list A) :
  (∀ x, ¬ P x) → filter P l = [].
Proof.
  intros HP. induction l as [|x l IH]; [done|].
  by rewrite filter_cons_False.
Qed.

Section builder.
Context `{Countable K}.
Implicit Types (chain : gmap K (list string)) (key : K).

Lemma lookup_record key word chain key' :
  record key word chain !! key' =
  if decide (key = key') then Some (default [] (chain !! key) ++ [word])
  else chain !! key'.
Proof.
  unfold record. destruct (chain !! key) eqn:Hkey; simpl;
    rewrite lookup_insert; by case_decide.
Qed.

Lemma lookup_observe (obs : nat → option (K * string)) its chain key :
  fold_left (λ c i, observe (obs i) c) its chain !! key =
  extend (chain !! key) (observed obs key its).
Proof.
  revert chain. induction its as [|i its IH]; intros chain; [done|].
  simpl. rewrite IH. unfold observed. simpl.
  destruct (obs i) as [[k word]|]; simpl; [|done].
  rewrite lookup_record. case_decide as Hk; [subst k|done].
  simpl. destruct (omap _ its); simpl; [done|].
  by rewrite <- app_assoc.
Qed.

(** A loop whose body agrees with [observe] is a fold of [observe]. *)
Lemma for_each_observe (words : list string)
    (body : gmap K (list string) → nat * string → result (gmap K (list string)))
    (obs : nat → option (K * string)) :
  (∀ chain i x, words !! i = Some x →
                body chain (i, x) = Ok (observe (obs i) chain)) →
  ∀ rest seen chain, words = seen ++ rest →
    for_each body (enumerate_from (length seen) rest) chain =
    Ok (fold_left (λ c i, observe (obs i) c)
                  (seq (length seen) (length rest)) chain).
Proof.
  intros Hbody. induction rest as [|x rest IH]; intros seen chain Hw.
  - done.
  - simpl. rewrite Hbody by (by rewrite Hw, list_lookup_middle). simpl.
    specialize (IH (seen ++ [x]) (observe (obs (length seen)) chain)).
    rewrite length_app, Nat.add_1_r in IH. apply IH.
    by rewrite <- app_assoc.
Qed.

Lemma extend_None (more successors : list string) :
  extend None more = Some successors ↔ more ≠ [] ∧ successors = more.
Proof. destruct more; simpl; naive_solver. Qed.

End builder.

Lemma chain1_body_observe (words : list string) chain i x :
  words !! i = Some x →
  chain1_body words (length words) chain (i, x)
  = Ok (observe (obs1 words i) chain).
Proof.
  intros Hi. unfold chain1_body, obs1. case_decide as Hlt; [|done].
  replace (Z.of_nat i + 1)%Z with (Z.of_nat (i + 1)) by lia.
  rewrite getitem_nat, Hi.
  destruct (lookup_lt_is_Some_2 words (i + 1) Hlt) as [word ->]. done.
Qed.

Lemma chain2_body_observe (words : list string) chain i x :
  words !! i = Some x →
  chain2_body words (length words) chain (i, x)
  = Ok (observe (obs2 words i) chain).
Proof.
  intros Hi. unfold chain2_body, obs2. case_decide as Hlt; [|done].
  replace (Z.of_nat i + 1)%Z with (Z.of_nat (i + 1)) by lia.
  replace (Z.of_nat i + 2)%Z with (Z.of_nat (i + 2)) by lia.
  rewrite !getitem_nat, Hi.
  destruct (lookup_lt_is_Some_2 words (i + 1)) as [key2 ->]; [lia|].
  destruct (lookup_lt_is_Some_2 words (i + 2) Hlt) as [word ->]. done.
Qed.

Lemma build_chain1_fold (words : list string) :
  build_chain1 words =
  Ok (fold_left (λ c i, observe (obs1 words i) c) (seq 0 (length words)) ∅).
Proof.
  apply (for_each_observe words _ _ (chain1_body_observe words) words []).
  done.
Qed.

Lemma build_chain2_fold (words : list string) :
  build_chain2 words =
  Ok (fold_left (λ c i, observe (obs2 words i) c) (seq 0 (length words)) ∅).
Proof.
  apply (for_each_observe words _ _ (chain2_body_observe words) words []).
  done.
Qed.

Lemma observed_obs1 (C : list string) (K : string) (its : list nat) :
  observed (obs1 C) K its
  = tokens_after 1 C (filter (λ i, C !! i = Some K ∧ i + 1 < length C) its).
Proof.
  apply omap_filter. intros i. unfold obs1.
  case_decide as Hlt; [|by rewrite decide_False by tauto].
  destruct (lookup_lt_is_Some_2 C i) as [k Hk]; [lia|].
  destruct (lookup_lt_is_Some_2 C (i + 1) Hlt) as [word Hword].
  rewrite Hk, Hword. simpl. repeat case_decide; naive_solver.
Qed.

Lemma observed_obs2 (C : list string) (K : string * string) (its : list nat) :
  observed (obs2 C) K its
  = tokens_after 2 C
      (filter (λ i, C !! i = Some K.1 ∧ C !! (i + 1) = Some K.2
                    ∧ i + 2 < length C) its).
Proof.
  apply omap_filter. intros i. unfold obs2.
  case_decide as Hlt; [|by rewrite decide_False by tauto].
  destruct (lookup_lt_is_Some_2 C i) as [k1 Hk1]; [lia|].
  destruct (lookup_lt_is_Some_2 C (i + 1)) as [k2 Hk2]; [lia|].
  destruct (lookup_lt_is_Some_2 C (i + 2) Hlt) as [word Hword].
  rewrite Hk1, Hk2, Hword. destruct K as [K1 K2]. simpl.
  repeat case_decide; naive_solver.
Qed.

(** With every index of [occs] followed by a token, [tokens_after] keeps
    one token per index. *)
Lemma tokens_after_nil (N : nat) (C : list string) (occs : list nat) :
  Forall (λ i, i + N < length C) occs →
  tokens_after N C occs = [] ↔ occs = [].
Proof.
  intros Hoccs. split; [|by intros ->].
  destruct Hoccs as [|i occs Hi _]; [done|]. unfold tokens_after. simpl.
  by destruct (lookup_lt_is_Some_2 C (i + N) Hi) as [word ->].
Qed.

Lemma occurrences1_spec (C : list string) (K : string) (i : nat) :
  i ∈ occurrences1 C K ↔ C !! i = Some K ∧ i + 1 < length C.
Proof.
  unfold occurrences1. rewrite list_elem_of_filter, elem_of_seq.
  split; [tauto|]. intros [? ?]. split; [done|lia].
Qed.

Lemma occurrences2_spec (C : list string) (K : string * string) (i : nat) :
  i ∈ occurrences2 C K ↔
  C !! i = Some K.1 ∧ C !! (i + 1) = Some K.2 ∧ i + 2 < length C.
Proof.
  unfold occurrences2. rewrite list_elem_of_filter, elem_of_seq.
  split; [tauto|]. intros (? & ? & ?). split; [done|lia].
Qed.

(** The occurrence indices are listed in increasing order, each one once. *)
Lemma filter_seq_increasing (P : nat → Prop) `{∀ i, Decision (P i)} (j n : nat) :
  StronglySorted lt (filter P (seq j n)).
Proof.
  revert j. induction n as [|n IH]; intros j; simpl; [constructor|].
  rewrite filter_cons. case_decide; [|apply IH].
  constructor; [apply IH|].
  apply Forall_forall. intros i [_ Hi%elem_of_seq]%list_elem_of_filter. lia.
Qed.

Lemma occurrences1_increasing (C : list string) (K : string) :
  StronglySorted lt (occurrences1 C K).
Proof. apply filter_seq_increasing. Qed.

Lemma occurrences2_increasing (C : list string) (K : string * string) :
  StronglySorted lt (occurrences2 C K).
Proof. apply filter_seq_increasing. Qed.

Lemma nonempty_elem {A : Type} (l : list A) : l ≠ [] ↔ ∃ x, x ∈ l.
Proof.
  destruct l as [|x l]; split; try done.
  - by intros [x ?%elem_of_nil].
  - intros _. exists x. left.
Qed.

(** * Properties of the walker *)

Lemma length_app_string (s1 s2 : string) :
  String.length (s1 +:+ s2) = String.length s1 + String.length s2.
Proof.
  induction s1 as [|a s1 IH]; [done|].
  change (S (String.length (s1 +:+ s2)) = S (String.length s1 + String.length s2)).
  by rewrite IH.
Qed.

Lemma app_assoc_string (s1 s2 s3 : string) :
  (s1 +:+ s2) +:+ s3 = s1 +:+ s2 +:+ s3.
Proof.
  induction s1 as [|a s1 IH]; [done|].
  change (String a ((s1 +:+ s2) +:+ s3) = String a (s1 +:+ s2 +:+ s3)).
  by rewrite IH.
Qed.

Lemma app_empty_r_string (s : string) : s = s +:+ "".
Proof.
  induction s as [|a s IH]; [done|].
  change (String a s = String a (s +:+ "")). by rewrite <- IH.
Qed.

Lemma randint_range (a b : Z) (g : rng) (r : Z) (g' : rng) :
  randint a b g = Ok (r, g') → (a ≤ r ≤ b)%Z.
Proof.
  unfold randint. destruct (Z.ltb_spec b a) as [|Hab]; [done|].
  simpl. intros [= <- _].
  pose proof (Z.mod_pos_bound (Z.of_nat (draws g (cursor g))) (b - a + 1)).
  lia.
Qed.

(** Every integer of the range is an outcome of [randint]. *)
Lemma randint_any (a b r : Z) :
  (a ≤ r ≤ b)%Z →
  ∃ g', randint a b (constant_rng (Z.to_nat (r - a))) = Ok (r, g').
Proof.
  intros Hr. unfold randint, constant_rng.
  destruct (Z.ltb_spec b a) as [|_]; [lia|]. simpl.
  eexists. do 2 f_equal. rewrite Z2Nat.id, Z.mod_small; lia.
Qed.

Lemma randint_last (n : nat) :
  0 < n →
  randint 0 (Z.of_nat n - 1) (constant_rng (n - 1))
  = Ok ((Z.of_nat n - 1)%Z, Rng (λ _, n - 1) 1).
Proof.
  intros Hn. unfold randint, constant_rng.
  destruct (Z.ltb_spec (Z.of_nat n - 1) 0) as [|_]; [lia|]. simpl.
  do 2 f_equal. rewrite Z.mod_small; lia.
Qed.

Lemma choice_elem {A : Type} (seq : list A) (g : rng) (y : A) (g' : rng) :
  choice seq g = Ok (y, g') → y ∈ seq.
Proof.
  unfold choice. destruct seq as [|x seq]; [done|]. simpl.
  destruct (_ !! _) as [z|] eqn:Hz; [|done].
  intros [= <- _]. by eapply list_elem_of_lookup_2.
Qed.

(** Anatomy of a successful iteration. *)
Lemma walk_body_ok chain st g st1 g1 :
  walk_body chain st g = Ok (st1, g1) →
  ∃ successors word,
    chain !! key st = Some successors ∧ word ∈ successors ∧
    st1 = Walk ((key st).2, word) (tweet st +:+ " " +:+ word) (Some word).
Proof.
  unfold walk_body, dict_getitem.
  destruct (chain !! key st) as [successors|]; [|done]. simpl.
  destruct (choice successors g) as [[word g2]|] eqn:Hc; [|done]. simpl.
  intros [= <- _]. exists successors, word. eauto using choice_elem.
Qed.

Lemma walk_body_KeyError chain st g :
  walk_body chain st g = Raise KeyError ↔ chain !! key st = None.
Proof.
  unfold walk_body, dict_getitem.
  destruct (chain !! key st) as [successors|]; simpl; [|done].
  unfold choice. destruct successors as [|x l]; [done|]. simpl.
  destruct (_ !! _); done.
Qed.

Lemma walk_body_longer chain st g st1 g1 :
  walk_body chain st g = Ok (st1, g1) →
  String.length (tweet st) < String.length (tweet st1).
Proof.
  intros (? & word & _ & _ & ->)%walk_body_ok. simpl.
  rewrite !length_app_string. simpl. lia.
Qed.

(** The loop ends within [target - len(tweet)] iterations. *)
Lemma walk_loop_total fuel chain st g :
  target - String.length (tweet st) ≤ fuel →
  is_Some (walk_loop fuel chain st g).
Proof.
  revert st g. induction fuel as [|fuel IH]; intros st g Hfuel; simpl.
  - rewrite decide_False by lia. eauto.
  - case_decide; [|eauto].
    destruct (walk_body chain st g) as [[st1 g1]|] eqn:Hbody; [|eauto].
    apply IH. apply walk_body_longer in Hbody. lia.
Qed.

Lemma markov_tweet_total chain words g : is_Some (markov_tweet chain words g).
Proof.
  unfold markov_tweet. destruct (start words g) as [[st g1]|]; [|eauto].
  destruct (walk_loop_total target chain st g1) as [[[st' g2]|e] ->];
    [lia|eauto..].
Qed.

(** What is known when the loop ends normally. *)
Lemma walk_loop_ok fuel chain st g st' g' :
  walk_loop fuel chain st g = Some (Ok (st', g')) →
  target ≤ String.length (tweet st') ∧
  (∃ rest, tweet st' = tweet st +:+ rest) ∧
  ((st' = st ∧ target ≤ String.length (tweet st)) ∨
   (String.length (tweet st) < target ∧
    ∃ before last, w st' = Some last ∧ tweet st' = before +:+ " " +:+ last ∧
                   String.length before < target)).
Proof.
  revert st g. induction fuel as [|fuel IH]; intros st g; simpl.
  - case_decide; [done|]. intros [= <- <-].
    split; [lia|]. split; [exists ""|left; split; [done|lia]].
    apply app_empty_r_string.
  - case_decide as Hlen.
    + destruct (walk_body chain st g) as [[st1 g1]|] eqn:Hbody; [|done].
      intros (Hge & [rest Hrest] & Hlast)%IH.
      apply walk_body_ok in Hbody as (successors & word & _ & _ & ->).
      simpl in *. split; [done|]. split.
      * exists (" " +:+ word +:+ rest). by rewrite Hrest, !app_assoc_string.
      * right. split; [done|].
        destruct Hlast as [[-> _]|(_ & before & last & ? & ? & ?)]; simpl.
        -- by exists (tweet st), word.
        -- by exists before, last.
    + intros [= <- <-]. split; [lia|].
      split; [exists ""|left; split; [done|lia]].
      apply app_empty_r_string.
Qed.

Lemma walk_loop_KeyError_reaches fuel chain st g :
  walk_loop fuel chain st g = Some (Raise KeyError) →
  ∃ st' g', reaches chain st g st' g' ∧
            String.length (tweet st') < target ∧ chain !! key st' = None.
Proof.
  revert st g. induction fuel as [|fuel IH]; intros st g; simpl.
  - by case_decide.
  - case_decide as Hlen; [|done].
    destruct (walk_body chain st g) as [[st1 g1]|e] eqn:Hbody.
    + intros (st' & g' & ? & ? & ?)%IH.
      exists st', g'. eauto using reaches_step.
    + intros [= ->]. apply walk_body_KeyError in Hbody.
      exists st, g. eauto using reaches_here.
Qed.

Lemma reaches_walk_loop_KeyError fuel chain st g st' g' :
  reaches chain st g st' g' →
  String.length (tweet st') < target → chain !! key st' = None →
  target - String.length (tweet st) ≤ fuel →
  walk_loop fuel chain st g = Some (Raise KeyError).
Proof.
  intros Hreach Hlen Hkey. revert fuel.
  induction Hreach as [st g|st g st1 g1 st' g' Hlt Hbody _ IH]; intros fuel Hfuel.
  - destruct fuel as [|fuel]; [lia|]. simpl. rewrite decide_True by done.
    by rewrite (proj2 (walk_body_KeyError chain st g) Hkey).
  - destruct fuel as [|fuel]; [lia|]. simpl. rewrite decide_True by done.
    rewrite Hbody. apply IH; [done..|].
    apply walk_body_longer in Hbody. lia.
Qed.

(** The statements before the loop raise [ValueError] or [IndexError],
    never [KeyError]. *)
Lemma start_not_KeyError words g : start words g ≠ Raise KeyError.
Proof.
  unfold start, start_index, randint.
  destruct (_ <? _)%Z; [done|]. simpl.
  unfold getitem.
  repeat (first [destruct (_ <? _)%Z | destruct (_ !! _)]; simpl; try done).
Qed.

(** Anatomy of the statements before the loop. *)
Lemma start_ok words g st g0 :
  start words g = Ok (st, g0) →
  ∃ r key0 key1,
    start_index words g = Ok (r, g0) ∧
    getitem words r = Ok key0 ∧ getitem words (r + 1) = Ok key1 ∧
    st = Walk (key0, key1) (key0 +:+ " " +:+ key1) None.
Proof.
  unfold start.
  destruct (start_index words g) as [[r g1]|] eqn:Hr; [|done]. simpl.
  destruct (getitem words r) as [key0|] eqn:H0; [|done]. simpl.
  destruct (getitem words (r + 1)) as [key1|] eqn:H1; [|done]. simpl.
  intros [= <- <-]. by exists r, key0, key1.
Qed.

Lemma start_last words :
  0 < length words →
  start words (constant_rng (length words - 1)) = Raise IndexError.
Proof.
  intros Hlen. unfold start, start_index. rewrite randint_last by done.
  simpl.
  replace (Z.of_nat (length words) - 1 + 1)%Z with (Z.of_nat (length words))
    by lia.
  rewrite (getitem_ge words (length words)) by done.
  replace (Z.of_nat (length words) - 1)%Z with (Z.of_nat (length words - 1))
    by lia.
  rewrite getitem_nat.
  by destruct (lookup_lt_is_Some_2 words (length words - 1)) as [x ->]; [lia|].
Qed.

(** * The claims

    Tokenizer: C9, C10.  Chain builders: C3, C7, C8.  Walker: C1, C2, C4,
    C5, C6. *)

(** C9 (as stated): a tab is a whitespace character, yet the tokenizer only
    separates words at spaces, carriage returns and line feeds, so a text
    that is a single tab yields the one-character token made of that tab. *)
Lemma read_words_tab_only :
  whitespace_only (String TAB "") ∧
  read_words (String TAB "") = [String TAB ""] ∧
  read_words (String TAB "") ≠ [].
Proof. split; [by repeat constructor|]. split; [reflexivity|discriminate]. Qed.

(** C9 (amended): a text that is empty or made only of spaces, carriage
    returns and line feeds yields the empty token sequence. *)
Theorem read_words_separators_only (text : string) :
  Forall is_separator (chars text) → read_words text = [].
Proof.
  intros Htext. rewrite read_words_concat.
  apply concat_nil, Forall_fmap, Forall_forall. intros line Hline. simpl.
  apply line_words_separators, Forall_forall. intros c Hc.
  rewrite Forall_forall in Htext. eauto using lines_chars.
Qed.

Lemma read_words_separators_only_witness :
  Forall is_separator (chars (String SP (String CR (String LF (String SP "")))))
  ∧ read_words (String SP (String CR (String LF (String SP "")))) = [].
Proof.
  assert (Forall is_separator
            (chars (String SP (String CR (String LF (String SP "")))))) as H.
  { simpl. repeat apply Forall_cons_2; try apply Forall_nil;
      unfold is_separator; auto. }
  split; [exact H|]. exact (read_words_separators_only _ H).
Defined.

(** C10: every token of the tokenizer is non-empty, is not the one-space
    string, and holds no space, carriage return or line feed. *)
Theorem read_words_tokens (text word : string) :
  word ∈ read_words text →
  word ≠ "" ∧ word ≠ " " ∧
  (SP ∉ chars word) ∧ (CR ∉ chars word) ∧ (LF ∉ chars word).
Proof.
  rewrite read_words_concat, list_elem_of_In, in_concat.
  intros (ws & (line & -> & _)%list_elem_of_In%list_elem_of_fmap
             & Hword%list_elem_of_In).
  apply line_words_elem in Hword as [[??]%keep_word_spec Hchars].
  repeat split; [done..| | |]; intros Hc; apply Hchars in Hc; naive_solver.
Qed.

Lemma read_words_tokens_witness :
  "brown" ∈ read_words fox ∧
  "brown" ≠ "" ∧ "brown" ≠ " " ∧
  (SP ∉ chars "brown") ∧ (CR ∉ chars "brown") ∧ (LF ∉ chars "brown").
Proof.
  assert ("brown" ∈ read_words fox) as H.
  { vm_compute. apply list_elem_of_In. simpl. tauto. }
  split; [exact H|]. exact (read_words_tokens fox "brown" H).
Defined.

(** C3: for a corpus [C], the order-1 builder returns a chain that maps [K]
    to [S] exactly when [K] occurs in [C] at some index [i] with
    [i + 1 < length C] and [S] lists the tokens [C[i + 1]] of all those
    occurrences, one per occurrence and in order of occurrence; the order-2
    builder does the same for pairs [(K1, K2)] of consecutive tokens and the
    tokens [C[i + 2]]. *)
Theorem chain_characterisation (C : list string) :
  (∃ chain, build_chain1 C = Ok chain ∧
     ∀ K S, chain !! K = Some S ↔
            (∃ i, i + 1 < length C ∧ C !! i = Some K) ∧
            S = tokens_after 1 C (occurrences1 C K)) ∧
  (∃ chain, build_chain2 C = Ok chain ∧
     ∀ K1 K2 S, chain !! (K1, K2) = Some S ↔
            (∃ i, i + 2 < length C ∧ C !! i = Some K1 ∧ C !! (i + 1) = Some K2) ∧
            S = tokens_after 2 C (occurrences2 C (K1, K2))).
Proof.
  split.
  - eexists. split; [apply build_chain1_fold|]. intros K S.
    rewrite lookup_observe, lookup_empty, extend_None, observed_obs1.
    fold (occurrences1 C K).
    rewrite tokens_after_nil, nonempty_elem
      by (apply Forall_forall; intros i Hi%occurrences1_spec; tauto).
    setoid_rewrite occurrences1_spec. naive_solver.
  - eexists. split; [apply build_chain2_fold|]. intros K1 K2 S.
    rewrite lookup_observe, lookup_empty, extend_None, observed_obs2.
    fold (occurrences2 C (K1, K2)).
    rewrite tokens_after_nil, nonempty_elem
      by (apply Forall_forall; intros i Hi%occurrences2_spec; tauto).
    setoid_rewrite occurrences2_spec. naive_solver.
Qed.

(** C7: on a corpus with fewer than [N + 1] tokens the builder of order [N]
    returns the empty chain, and raises nothing. *)
Theorem short_corpus_empty_chain (words : list string) :
  (length words < 1 + 1 → build_chain1 words = Ok ∅) ∧
  (length words < 2 + 1 → build_chain2 words = Ok ∅).
Proof.
  split; intros Hlen.
  - rewrite build_chain1_fold. f_equal. apply map_eq. intros K.
    rewrite lookup_observe, lookup_empty, observed_obs1.
    rewrite filter_none; [done|]. intros i. lia.
  - rewrite build_chain2_fold. f_equal. apply map_eq. intros K.
    rewrite lookup_observe, lookup_empty, observed_obs2.
    rewrite filter_none; [done|]. intros i. lia.
Qed.

Lemma short_corpus_empty_chain_witness :
  build_chain1 ["the"] = Ok ∅ ∧ build_chain2 ["the"; "brown"] = Ok ∅.
Proof.
  split.
  - apply (proj1 (short_corpus_empty_chain ["the"])). simpl. lia.
  - apply (proj2 (short_corpus_empty_chain ["the"; "brown"])). simpl. lia.
Defined.

(** C8: on the tokens of "the brown fox jumped over the lazy dog" the
    order-1 chain has ["the"] ↦ ["brown"; "lazy"] and ["fox"] ↦ ["jumped"],
    and the order-2 chain has [("the", "brown")] ↦ ["fox"] and
    [("over", "the")] ↦ ["lazy"]. *)
Theorem fox_chains :
  (∃ chain, build_chain1 (read_words fox) = Ok chain ∧
            chain !! "the" = Some ["brown"; "lazy"] ∧
            chain !! "fox" = Some ["jumped"]) ∧
  (∃ chain, build_chain2 (read_words fox) = Ok chain ∧
            chain !! ("the", "brown") = Some ["fox"] ∧
            chain !! ("over", "the") = Some ["lazy"]).
Proof.
  split; (eexists; split; [reflexivity|]); split; vm_compute; reflexivity.
Qed.

(** C1 (the code at a failing input): on the corpus [a b c] the start index
    can be 2, beyond the last 2-token window, and [words[r + 1]] raises
    [IndexError]; it can be 1, and the start context [(b, c)], which was
    never a key of the chain, makes the loop raise [KeyError]. *)
Lemma start_index_not_restricted :
  let words := ["a"; "b"; "c"] in
  ∃ chain, build_chain2 words = Ok chain ∧
    (∃ g', start_index words (constant_rng 2) = Ok (2%Z, g')) ∧
    ¬ (2 ≤ Z.of_nat (length words) - 2)%Z ∧
    markov_tweet chain words (constant_rng 2) = Some (Raise IndexError) ∧
    (∃ g', start words (constant_rng 1)
           = Ok (Walk ("b", "c") "b c" None, g')) ∧
    chain !! ("b", "c") = None ∧
    markov_tweet chain words (constant_rng 1) = Some (Raise KeyError).
Proof.
  simpl. eexists. split; [reflexivity|].
  split; [by eexists|]. split; [simpl; lia|].
  split; [by vm_compute|]. split; [by eexists|].
  split; by vm_compute.
Qed.

(** C2: for every non-empty corpus some outcome of the random source makes
    [r = len(words) - 1]; [words[r]] is in bounds, [words[r + 1]] is one past
    the end of the corpus, and [markov_tweet] raises [IndexError]. *)
Theorem start_context_out_of_bounds
    (chain : gmap (string * string) (list string)) (words : list string) :
  words ≠ [] →
  ∃ g g',
    start_index words g = Ok ((Z.of_nat (length words) - 1)%Z, g') ∧
    (∃ key0, getitem words (Z.of_nat (length words) - 1) = Ok key0) ∧
    getitem words (Z.of_nat (length words) - 1 + 1) = Raise IndexError ∧
    markov_tweet chain words g = Some (Raise IndexError).
Proof.
  intros Hwords.
  assert (0 < length words) as Hlen by (destruct words; [done|simpl; lia]).
  assert (getitem words (Z.of_nat (length words) - 1 + 1) = Raise IndexError)
    as Hnext.
  { replace (Z.of_nat (length words) - 1 + 1)%Z with (Z.of_nat (length words))
      by lia.
    by apply getitem_ge. }
  exists (constant_rng (length words - 1)), (Rng (λ _, length words - 1) 1).
  split; [by apply randint_last|]. split; [|split; [done|]].
  - replace (Z.of_nat (length words) - 1)%Z with (Z.of_nat (length words - 1))
      by lia.
    rewrite getitem_nat.
    destruct (lookup_lt_is_Some_2 words (length words - 1)) as [x ->]; [lia|].
    by exists x.
  - unfold markov_tweet. by rewrite start_last.
Qed.

Lemma start_context_out_of_bounds_witness :
  ∃ g g',
    start_index ["a"; "b"; "c"] g = Ok (2%Z, g') ∧
    (∃ key0, getitem ["a"; "b"; "c"] 2 = Ok key0) ∧
    getitem ["a"; "b"; "c"] 3 = Raise IndexError ∧
    markov_tweet ∅ ["a"; "b"; "c"] g = Some (Raise IndexError).
Proof.
  apply (start_context_out_of_bounds ∅ ["a"; "b"; "c"]). discriminate.
Defined.

(** C4: when [markov_tweet] ends normally, the tweet it writes is at least
    140 characters long and begins with [words[r] + ' ' + words[r + 1]] for
    the start index [r] that was drawn. *)
Theorem markov_tweet_output
    (chain : gmap (string * string) (list string)) (words : list string)
    (g : rng) (out : string) (g' : rng) :
  markov_tweet chain words g = Some (Ok (out, g')) →
  ∃ r g0 key0 key1 rest tweet,
    start_index words g = Ok (r, g0) ∧
    getitem words r = Ok key0 ∧ getitem words (r + 1) = Ok key1 ∧
    tweet = (key0 +:+ " " +:+ key1) +:+ rest ∧
    target ≤ String.length tweet ∧
    out = print (tweet +:+ String LF EmptyString).
Proof.
  unfold markov_tweet.
  destruct (start words g) as [[st g0]|] eqn:Hstart; [|done].
  destruct (walk_loop target chain st g0) as [[[st' g2]|e]|] eqn:Hloop;
    [|done..].
  intros [= <- <-].
  apply start_ok in Hstart as (r & key0 & key1 & Hr & H0 & H1 & ->).
  apply walk_loop_ok in Hloop as (Hge & [rest Hrest] & _). simpl in Hrest.
  exists r, g0, key0, key1, rest, (tweet st'). by rewrite <- Hrest.
Qed.

Lemma markov_tweet_output_witness :
  ∃ out g',
    markov_tweet {[ ("a", "a") := ["a"] ]} ["a"; "a"; "a"] (constant_rng 0)
    = Some (Ok (out, g')) ∧
    ∃ r g0 key0 key1 rest tweet,
      start_index ["a"; "a"; "a"] (constant_rng 0) = Ok (r, g0) ∧
      getitem ["a"; "a"; "a"] r = Ok key0 ∧
      getitem ["a"; "a"; "a"] (r + 1) = Ok key1 ∧
      tweet = (key0 +:+ " " +:+ key1) +:+ rest ∧
      target ≤ String.length tweet ∧
      out = print (tweet +:+ String LF EmptyString).
Proof.
  eexists _, _. split; [vm_compute; reflexivity|].
  eapply (markov_tweet_output
            {[ ("a", "a") := ["a"] ]} ["a"; "a"; "a"] (constant_rng 0)).
  vm_compute. reflexivity.
Defined.

(** C5: an iteration of the walker's loop raises [KeyError] exactly when the
    current context key has no entry in the chain; the loop then stops at
    once with that error, and [markov_tweet] hands [KeyError] to its caller
    exactly when its loop reaches, with [len(tweet) < 140], a context key
    that is absent from the chain. *)
Theorem missing_context_error (chain : gmap (string * string) (list string)) :
  (∀ st g, walk_body chain st g = Raise KeyError ↔ chain !! key st = None) ∧
  (∀ fuel st g,
     String.length (tweet st) < target → chain !! key st = None →
     walk_loop (S fuel) chain st g = Some (Raise KeyError)) ∧
  (∀ words g,
     markov_tweet chain words g = Some (Raise KeyError) ↔
     ∃ st0 g0 st' g',
       start words g = Ok (st0, g0) ∧ reaches chain st0 g0 st' g' ∧
       String.length (tweet st') < target ∧ chain !! key st' = None).
Proof.
  split; [apply walk_body_KeyError|]. split.
  - intros fuel st g Hlen Hkey. simpl. rewrite decide_True by done.
    by rewrite (proj2 (walk_body_KeyError chain st g) Hkey).
  - intros words g. unfold markov_tweet.
    pose proof (start_not_KeyError words g) as Hstart.
    destruct (start words g) as [[st0 g0]|e].
    + split.
      * destruct (walk_loop target chain st0 g0) as [[[st' g']|e]|] eqn:Hloop;
          [done| |done].
        intros [= ->]. apply walk_loop_KeyError_reaches in Hloop.
        destruct Hloop as (st' & g' & ?). by exists st0, g0, st', g'.
      * intros (? & ? & st' & g' & [= <- <-] & Hreach & Hlen & Hkey).
        rewrite (reaches_walk_loop_KeyError target _ _ _ _ _ Hreach Hlen Hkey);
          [done|lia].
    + split; [by intros [= ->]|]. by intros (? & ? & ? & ? & ? & _).
Qed.

Lemma missing_context_error_witness :
  walk_loop 1 ∅ (Walk ("a", "b") "a b" None) (constant_rng 0)
  = Some (Raise KeyError).
Proof.
  apply (proj1 (proj2 (missing_context_error ∅))).
  - vm_compute. lia.
  - reflexivity.
Defined.

(** C6 (as stated): on the corpus of a word of 150 letters followed by
    [a], with start index 0, the start tweet already has 152 characters: the
    loop ends at once, no token is sampled ([w] stays unbound), and the
    tweet exceeds the target by 12 characters, more than the length of any
    token appended by the loop (there is none) and more than the length of
    its last word [a]. *)
Lemma walk_loop_overshoot_without_token :
  let words := [letters 150; "a"] in
  build_chain2 words = Ok ∅ ∧
  ∃ st g0 st' g',
    start words (constant_rng 0) = Ok (st, g0) ∧
    walk_loop target ∅ st g0 = Some (Ok (st', g')) ∧
    w st' = None ∧
    String.length (tweet st') = 152 ∧
    target + String.length "a" < String.length (tweet st') ∧
    ¬ (∃ last, w st' = Some last ∧
               String.length (tweet st') ≤ target + String.length last).
Proof.
  split; [by vm_compute|].
  eexists _, _, _, _. split; [vm_compute; reflexivity|].
  split; [vm_compute; reflexivity|].
  split; [reflexivity|]. split; [by vm_compute|].
  split; [vm_compute; lia|]. by intros (last & ? & _).
Qed.

(** C6 (amended): when the loop ends, the tweet is the start tweet followed
    by what the loop appended, nothing cut off; if the body ran (the start
    tweet was shorter than 140 characters), the tweet ends with the last
    sampled token [w] and is at most [140 + len(w)] characters long; if the
    body never ran, the tweet is the start tweet, of 140 characters or
    more. *)
Theorem walk_loop_overshoot
    (fuel : nat) (chain : gmap (string * string) (list string))
    (key0 : string * string) (tweet0 : string) (g : rng)
    (st' : walk) (g' : rng) :
  walk_loop fuel chain (Walk key0 tweet0 None) g = Some (Ok (st', g')) →
  (∃ rest, tweet st' = tweet0 +:+ rest) ∧
  match w st' with
  | Some last =>
      String.length tweet0 < target ∧
      String.length (tweet st') ≤ target + String.length last ∧
      ∃ before, tweet st' = before +:+ " " +:+ last
  | None => tweet st' = tweet0 ∧ target ≤ String.length tweet0
  end.
Proof.
  intros (_ & Hrest & Hlast)%walk_loop_ok. cbn [tweet w] in *.
  split; [done|].
  destruct Hlast as [[-> ?]|(? & before & last & -> & Htweet & ?)]; [done|].
  split; [done|]. split; [|by exists before].
  rewrite Htweet, !length_app_string. cbn [String.length]. lia.
Qed.

Lemma walk_loop_overshoot_witness :
  ∃ st' g',
    walk_loop target {[ ("a", "a") := ["a"] ]} (Walk ("a", "a") "a a" None)
              (constant_rng 0) = Some (Ok (st', g')) ∧
    (∃ rest, tweet st' = "a a" +:+ rest) ∧
    match w st' with
    | Some last =>
        String.length "a a" < target ∧
        String.length (tweet st') ≤ target + String.length last ∧
        ∃ before, tweet st' = before +:+ " " +:+ last
    | None => tweet st' = "a a" ∧ target ≤ String.length "a a"
    end.
Proof.
  eexists _, _. split; [vm_compute; reflexivity|].
  eapply (walk_loop_overshoot target {[ ("a", "a") := ["a"] ]} ("a", "a") "a a"
            (constant_rng 0)).
  vm_compute. reflexivity.
Defined.

(** * Further properties of the tokenizer *)

Lemma app_cons_string (a : ascii) (s1 s2 : string) :
  String a s1 +:+ s2 = String a (s1 +:+ s2).
Proof. reflexivity. Qed.

Lemma chars_app (s1 s2 : string) : chars (s1 +:+ s2) = chars s1 ++ chars s2.
Proof.
  induction s1 as [|a s1 IH]; [done|].
  rewrite app_cons_string. simpl. by rewrite IH.
Qed.

Lemma to_ascii_app (s1 s2 : string) :
  to_ascii (s1 +:+ s2) = to_ascii s1 +:+ to_ascii s2.
Proof.
  induction s1 as [|a s1 IH]; [done|].
  rewrite app_cons_string. simpl. destruct (is_ascii a); by rewrite IH.
Qed.

Lemma replace_app (old new : ascii) (s1 s2 : string) :
  replace old new (s1 +:+ s2) = replace old new s1 +:+ replace old new s2.
Proof.
  induction s1 as [|a s1 IH]; [done|].
  rewrite app_cons_string. simpl. by rewrite IH.
Qed.

Lemma normalize_app (s1 s2 : string) :
  normalize (s1 +:+ s2) = normalize s1 +:+ normalize s2.
Proof. unfold normalize. by rewrite to_ascii_app, !replace_app. Qed.

Lemma normalize_separator (c : ascii) :
  is_separator c → normalize (String c "") = String SP "".
Proof. by intros [->|[->| ->]]. Qed.

(** [split] cuts at every separator: the pieces on both sides of one are
    the pieces of the whole. *)
Lemma split_app_sep (sep : ascii) (s1 s2 : string) :
  split sep (s1 +:+ String sep s2) = split sep s1 ++ split sep s2.
Proof.
  induction s1 as [|a s1 IH].
  - change (split sep (String sep s2) = [""] ++ split sep s2).
    simpl. by rewrite decide_True.
  - rewrite app_cons_string. simpl. rewrite IH. case_decide; [done|].
    destruct (split sep s1) as [|q qs] eqn:Hq; [|done].
    by destruct (split_nonempty sep s1).
Qed.

Lemma line_words_normalize (line : string) :
  line_words line = List.filter keep_word (split SP (normalize line)).
Proof. reflexivity. Qed.

Lemma line_words_app_sep (c : ascii) (s1 s2 : string) :
  is_separator c →
  line_words (s1 +:+ String c s2) = line_words s1 ++ line_words s2.
Proof.
  intros Hc. rewrite !line_words_normalize.
  change (String c s2) with (String c "" +:+ s2).
  rewrite !normalize_app, (normalize_separator c Hc).
  change (String SP "" +:+ normalize s2) with (String SP (normalize s2)).
  by rewrite split_app_sep, List.filter_app.
Qed.

Lemma line_words_empty : line_words "" = [].
Proof. reflexivity. Qed.

Lemma lines_app_LF (pre rest : string) :
  LF ∉ chars pre →
  lines (pre +:+ String LF rest) = (pre +:+ String LF "") :: lines rest.
Proof.
  induction pre as [|a pre IH]; intros Hpre.
  - done.
  - rewrite !app_cons_string. simpl in *.
    apply not_elem_of_cons in Hpre as [Ha Hpre].
    rewrite decide_False by done. by rewrite IH.
Qed.

Lemma lines_no_LF (s : string) :
  LF ∉ chars s → s ≠ "" → lines s = [s].
Proof.
  induction s as [|a s IH]; [done|]. simpl.
  intros [Ha Hs]%not_elem_of_cons _. rewrite decide_False by done.
  destruct s as [|b s]; [done|]. by rewrite IH.
Qed.

Lemma read_words_line_words_pre (text pre : string) :
  LF ∉ chars pre →
  read_words (pre +:+ text) = line_words (pre +:+ text).
Proof.
  revert pre. induction text as [|c text IH]; intros pre Hpre.
  - rewrite <- app_empty_r_string, read_words_concat.
    destruct pre as [|a pre]; [done|].
    rewrite lines_no_LF by done. simpl. by rewrite app_nil_r.
  - destruct (decide (c = LF)) as [->|Hc].
    + rewrite read_words_concat, lines_app_LF by done. simpl.
      rewrite <- read_words_concat.
      pose proof (IH "" (not_elem_of_nil LF)) as IH0.
      change ("" +:+ text) with text in IH0. rewrite IH0.
      rewrite !line_words_app_sep by (unfold is_separator; auto).
      by rewrite line_words_empty, app_nil_r.
    + change (String c text) with (String c "" +:+ text).
      rewrite <- app_assoc_string. apply IH.
      rewrite chars_app. simpl. rewrite elem_of_app, list_elem_of_singleton.
      intros [?|?]; done.
Qed.

(** X1: the way the text is cut into lines does not matter: the words read
    line by line are the words of the whole text taken as one line. *)
Theorem read_words_one_line (text : string) :
  read_words text = line_words text.
Proof. apply (read_words_line_words_pre text ""), not_elem_of_nil. Qed.

Lemma read_words_eq_line_words (text : string) :
  read_words text = line_words text.
Proof. apply (read_words_line_words_pre text ""), not_elem_of_nil. Qed.

Lemma read_words_sep (c : ascii) (text1 text2 : string) :
  is_separator c →
  read_words (text1 +:+ String c text2) = read_words text1 ++ read_words text2.
Proof.
  intros Hc. rewrite !read_words_eq_line_words. by apply line_words_app_sep.
Qed.

(** X2: the words of two texts joined by a space, a carriage return or a
    line feed are the words of the first followed by the words of the
    second. *)
Theorem read_words_app_separator (c : ascii) (text1 text2 : string) :
  is_separator c →
  read_words (text1 +:+ String c text2) = read_words text1 ++ read_words text2.
Proof.
  apply read_words_sep.
Qed.

Lemma read_words_app_separator_witness :
  is_separator CR ∧
  read_words ("the brown" +:+ String CR "fox jumped")
  = read_words "the brown" ++ read_words "fox jumped".
Proof.
  assert (is_separator CR) as H by (unfold is_separator; auto).
  split; [exact H|]. exact (read_words_app_separator CR _ _ H).
Defined.

Lemma to_ascii_id (s : string) :
  (∀ c, c ∈ chars s → is_ascii c = true) → to_ascii s = s.
Proof.
  induction s as [|a s IH]; [done|]. simpl. intros Hs.
  rewrite (Hs a) by left. rewrite IH; [done|]. intros c Hc. apply Hs. by right.
Qed.

Lemma replace_id (old new : ascii) (s : string) :
  old ∉ chars s → replace old new s = s.
Proof.
  induction s as [|a s IH]; [done|]. simpl.
  intros [Ha Hs]%not_elem_of_cons. rewrite decide_False by done.
  by rewrite IH.
Qed.

Lemma split_id (sep : ascii) (s : string) :
  sep ∉ chars s → split sep s = [s].
Proof.
  induction s as [|a s IH]; [done|]. simpl.
  intros [Ha Hs]%not_elem_of_cons. rewrite decide_False by done.
  by rewrite IH.
Qed.

Lemma is_token_no_separator (word : string) (c : ascii) :
  is_token word → is_separator c → c ∉ chars word.
Proof. intros [_ Hw] Hc Hin. by destruct (Hw c Hin). Qed.

Lemma line_words_token (word : string) :
  is_token word → line_words word = [word].
Proof.
  intros Hw. rewrite line_words_normalize. unfold normalize.
  assert ((SP ∉ chars word) ∧ (CR ∉ chars word) ∧ (LF ∉ chars word))
    as (Hsp & Hcr & Hlf).
  { repeat split; apply is_token_no_separator; unfold is_separator; auto. }
  rewrite to_ascii_id by (intros c Hc; by apply Hw).
  rewrite (replace_id CR), (replace_id LF), split_id by done. simpl.
  destruct Hw as [Hne _].
  assert (keep_word word = true) as ->; [|done].
  apply keep_word_spec. split; [done|]. intros ->. apply Hsp. left.
Qed.

Lemma read_words_elem_is_token (text word : string) :
  word ∈ read_words text →
  is_token word ∧ ∀ c, c ∈ chars word → c ∈ chars text.
Proof.
  rewrite read_words_concat, list_elem_of_In, in_concat.
  intros (ws & (line & -> & Hline)%list_elem_of_In%list_elem_of_fmap
             & Hword%list_elem_of_In).
  apply line_words_elem in Hword as [[Hne _]%keep_word_spec Hchars].
  split; [split; [done|]|].
  - intros c Hc. destruct (Hchars c Hc) as (_ & ? & ? & ? & ?).
    split; [done|]. intros [?|[?|?]]; done.
  - intros c Hc. destruct (Hchars c Hc) as (? & _).
    by apply (lines_chars text line).
Qed.

(** X3: a string is a word of some text exactly when it is not empty, is
    ASCII only and holds no space, carriage return or line feed; and the
    characters of a word read from a text are characters of that text. *)
Theorem read_words_tokens_exactly (word : string) :
  (is_token word ↔ ∃ text, word ∈ read_words text) ∧
  (∀ text c, word ∈ read_words text → c ∈ chars word → c ∈ chars text).
Proof.
  split.
  - split.
    + intros Hw. exists word.
      rewrite read_words_eq_line_words, line_words_token by done. left.
    + intros [text Hw]. by apply (read_words_elem_is_token text).
  - intros text c Hw. by apply (read_words_elem_is_token text word).
Qed.

Lemma read_words_tokens_exactly_witness :
  (is_token "fox" ↔ ∃ text, "fox" ∈ read_words text) ∧
  (∀ text c, "fox" ∈ read_words text → c ∈ chars "fox" → c ∈ chars text).
Proof. exact (read_words_tokens_exactly "fox"). Defined.

Lemma read_words_token (word : string) :
  is_token word → read_words word = [word].
Proof. intros Hw. by rewrite read_words_eq_line_words, line_words_token. Qed.

Lemma read_words_snoc (text word : string) :
  is_token word →
  read_words (text +:+ " " +:+ word) = read_words text ++ [word].
Proof.
  intros Hw. change (" " +:+ word) with (String SP word).
  rewrite read_words_sep by (unfold is_separator; auto).
  by rewrite (read_words_token word).
Qed.

(** X4: reading back is the inverse of joining with a space: a text
    extended by [' ' + word], for a well-formed [word], reads as the words of
    the text followed by [word]; a well-formed word alone reads as itself. *)
Theorem read_words_append_token (text word : string) :
  is_token word →
  read_words (text +:+ " " +:+ word) = read_words text ++ [word] ∧
  read_words word = [word].
Proof.
  intros Hw. split; [by apply read_words_snoc|by apply read_words_token].
Qed.

Lemma is_token_dog : is_token "dog".
Proof.
  split; [done|]. intros c Hc.
  apply list_elem_of_In in Hc. simpl in Hc.
  destruct Hc as [<-|[<-|[<-|[]]]];
    (split; [done|]); intros [?|[?|?]]; done.
Qed.

Lemma read_words_append_token_witness :
  is_token "dog" ∧
  read_words ("the lazy" +:+ " " +:+ "dog") = read_words "the lazy" ++ ["dog"] ∧
  read_words "dog" = ["dog"].
Proof.
  split; [exact is_token_dog|].
  exact (read_words_append_token "the lazy" "dog" is_token_dog).
Defined.

(** * Further properties of the chain builders *)

Section builder_folds.
Context `{Countable K}.
Implicit Types (chain : gmap K (list string)) (obs : nat → option (K * string)).

Lemma size_record (k : K) (word : string) chain :
  size (record k word chain) ≤ S (size chain).
Proof.
  unfold record. destruct (chain !! k) as [l|] eqn:Hk.
  - rewrite map_size_insert_Some by done. lia.
  - by rewrite map_size_insert_None.
Qed.

(** Iterations from [m] on that observe nothing do not add keys. *)
Lemma size_fold_observe obs (m j n : nat) chain :
  (∀ i, m ≤ i → obs i = None) →
  size (fold_left (λ c i, observe (obs i) c) (seq j n) chain)
  ≤ size chain + (m - j).
Proof.
  intros Hobs. revert j chain. induction n as [|n IH]; intros j chain; simpl.
  - lia.
  - etrans; [apply IH|]. destruct (decide (m ≤ j)) as [Hj|Hj].
    + rewrite (Hobs j Hj). simpl. lia.
    + destruct (obs j) as [[k word]|]; simpl; [|lia].
      pose proof (size_record k word chain). lia.
Qed.


Lemma fold_observe_None obs (its : list nat) chain :
  (∀ i, i ∈ its → obs i = None) →
  fold_left (λ c i, observe (obs i) c) its chain = chain.
Proof.
  revert chain. induction its as [|i its IH]; intros chain Hobs; [done|].
  simpl. rewrite (Hobs i) by left. apply IH. intros j Hj. apply Hobs. by right.
Qed.

End builder_folds.

Lemma extend_None_is_Some (more : list string) :
  is_Some (extend None more) ↔ more ≠ [].
Proof.
  destruct more; simpl; split; done.
Qed.

Lemma list_elem_of_tokens_after (N : nat) (C : list string) (occs : list nat)
    (word : string) :
  word ∈ tokens_after N C occs ↔ ∃ i, i ∈ occs ∧ C !! (i + N) = Some word.
Proof. apply list_elem_of_omap. Qed.

Lemma build_chain1_lookup (C : list string) chain (K : string) :
  build_chain1 C = Ok chain →
  chain !! K = extend None (tokens_after 1 C (occurrences1 C K)).
Proof.
  rewrite build_chain1_fold. intros [= <-].
  by rewrite lookup_observe, lookup_empty, observed_obs1.
Qed.

Lemma build_chain2_lookup (C : list string) chain (K : string * string) :
  build_chain2 C = Ok chain →
  chain !! K = extend None (tokens_after 2 C (occurrences2 C K)).
Proof.
  rewrite build_chain2_fold. intros [= <-].
  by rewrite lookup_observe, lookup_empty, observed_obs2.
Qed.

Lemma occurrences1_followed (C : list string) (K : string) :
  Forall (λ i, i + 1 < length C) (occurrences1 C K).
Proof. apply Forall_forall. intros i Hi%occurrences1_spec. tauto. Qed.

Lemma occurrences2_followed (C : list string) (K : string * string) :
  Forall (λ i, i + 2 < length C) (occurrences2 C K).
Proof. apply Forall_forall. intros i Hi%occurrences2_spec. tauto. Qed.

(** What a stored successor list of the order-1 chain is. *)
Lemma build_chain1_Some (C : list string) chain (K : string) (S : list string) :
  build_chain1 C = Ok chain → chain !! K = Some S →
  S ≠ [] ∧ ∀ word, word ∈ S ↔
                   ∃ i, C !! i = Some K ∧ C !! (i + 1) = Some word.
Proof.
  intros Hb. rewrite (build_chain1_lookup C chain K Hb), extend_None.
  intros [Hne ->]. split; [done|]. intros word.
  rewrite list_elem_of_tokens_after. setoid_rewrite occurrences1_spec.
  split; [naive_solver|]. intros (i & Hi & Hw). exists i.
  pose proof (lookup_lt_Some _ _ _ Hw). done.
Qed.

Lemma build_chain2_Some (C : list string) chain (K : string * string)
    (S : list string) :
  build_chain2 C = Ok chain → chain !! K = Some S →
  S ≠ [] ∧ ∀ word, word ∈ S ↔
                   ∃ i, C !! i = Some K.1 ∧ C !! (i + 1) = Some K.2 ∧
                        C !! (i + 2) = Some word.
Proof.
  intros Hb. rewrite (build_chain2_lookup C chain K Hb), extend_None.
  intros [Hne ->]. split; [done|]. intros word.
  rewrite list_elem_of_tokens_after. setoid_rewrite occurrences2_spec.
  split; [naive_solver|]. intros (i & Hi & Hi' & Hw). exists i.
  pose proof (lookup_lt_Some _ _ _ Hw). done.
Qed.

(** Which keys the chains have. *)
Lemma build_chain1_is_Some (C : list string) chain (K : string) :
  build_chain1 C = Ok chain →
  is_Some (chain !! K) ↔ ∃ i, C !! i = Some K ∧ i + 1 < length C.
Proof.
  intros Hb. rewrite (build_chain1_lookup C chain K Hb), extend_None_is_Some.
  rewrite tokens_after_nil, nonempty_elem by apply occurrences1_followed.
  by setoid_rewrite occurrences1_spec.
Qed.

Lemma build_chain2_is_Some (C : list string) chain (K : string * string) :
  build_chain2 C = Ok chain →
  is_Some (chain !! K) ↔
  ∃ i, C !! i = Some K.1 ∧ C !! (i + 1) = Some K.2 ∧ i + 2 < length C.
Proof.
  intros Hb. rewrite (build_chain2_lookup C chain K Hb), extend_None_is_Some.
  rewrite tokens_after_nil, nonempty_elem by apply occurrences2_followed.
  by setoid_rewrite occurrences2_spec.
Qed.

(** X5: no successor list of a built chain is empty, and a token is in the
    list of a key exactly when it follows the key somewhere in the corpus
    (order 1: [C[i] = K], [C[i+1] = word]; order 2: [C[i], C[i+1]] is the
    key and [C[i+2] = word]). *)
Theorem chain_successors_observed (C : list string) :
  (∀ chain K S, build_chain1 C = Ok chain → chain !! K = Some S →
     S ≠ [] ∧ ∀ word, word ∈ S ↔
                      ∃ i, C !! i = Some K ∧ C !! (i + 1) = Some word) ∧
  (∀ chain K1 K2 S, build_chain2 C = Ok chain → chain !! (K1, K2) = Some S →
     S ≠ [] ∧ ∀ word, word ∈ S ↔
                      ∃ i, C !! i = Some K1 ∧ C !! (i + 1) = Some K2 ∧
                           C !! (i + 2) = Some word).
Proof.
  split.
  - intros chain K S. apply build_chain1_Some.
  - intros chain K1 K2 S. apply (build_chain2_Some C chain (K1, K2)).
Qed.

Lemma chain_successors_observed_witness :
  ∃ chain,
    build_chain1 ["a"; "b"; "a"; "c"] = Ok chain ∧
    chain !! "a" = Some ["b"; "c"] ∧
    ["b"; "c"] ≠ [] ∧
    ∀ word, word ∈ ["b"; "c"] ↔
            ∃ i, ["a"; "b"; "a"; "c"] !! i = Some "a" ∧
                 ["a"; "b"; "a"; "c"] !! (i + 1) = Some word.
Proof.
  eexists. split; [reflexivity|]. split; [by vm_compute|].
  eapply (proj1 (chain_successors_observed ["a"; "b"; "a"; "c"]));
    [reflexivity|by vm_compute].
Defined.

Lemma obs1_None (C : list string) (i : nat) :
  length C - 1 ≤ i → obs1 C i = None.
Proof. intros Hi. unfold obs1. rewrite decide_False; [done|lia]. Qed.

Lemma obs2_None (C : list string) (i : nat) :
  length C - 2 ≤ i → obs2 C i = None.
Proof. intros Hi. unfold obs2. rewrite decide_False; [done|lia]. Qed.

(** X6: the keys of the order-1 chain are the distinct words of
    [words[:-1]] (all words but the last, none for an empty corpus), so
    [len(chain)], the number printed as the chain size, is at most
    [max(len(words) - 1, 0)]; the order-2 chain has at most
    [max(len(words) - 2, 0)] keys. *)
Theorem chain_size (C : list string) :
  (∀ chain, build_chain1 C = Ok chain →
     dom chain = list_to_set (removelast C) ∧
     (Z.of_nat (size chain) ≤ Z.max 0 (Z.of_nat (length C) - 1))%Z) ∧
  (∀ chain, build_chain2 C = Ok chain →
     (Z.of_nat (size chain) ≤ Z.max 0 (Z.of_nat (length C) - 2))%Z).
Proof.
  split.
  - intros chain Hb. split.
    + apply set_eq. intros K.
      rewrite elem_of_dom, (build_chain1_is_Some C chain K Hb).
      rewrite elem_of_list_to_set, removelast_firstn_len, elem_of_take.
      split; intros (i & ? & ?); exists i; (split; [done|lia]).
    + rewrite build_chain1_fold in Hb. injection Hb as <-.
      pose proof (size_fold_observe (obs1 C) (length C - 1) 0 (length C) ∅
                    (obs1_None C)) as Hsize.
      rewrite map_size_empty in Hsize. lia.
  - intros chain Hb. rewrite build_chain2_fold in Hb. injection Hb as <-.
    pose proof (size_fold_observe (obs2 C) (length C - 2) 0 (length C) ∅
                  (obs2_None C)) as Hsize.
    rewrite map_size_empty in Hsize. lia.
Qed.

Lemma chain_size_witness :
  ∃ chain,
    build_chain1 ["a"; "b"; "a"; "c"] = Ok chain ∧
    dom chain = list_to_set (removelast ["a"; "b"; "a"; "c"]) ∧
    (Z.of_nat (size chain)
     ≤ Z.max 0 (Z.of_nat (length ["a"; "b"; "a"; "c"]) - 1))%Z.
Proof.
  eexists. split; [reflexivity|].
  apply (proj1 (chain_size ["a"; "b"; "a"; "c"])). reflexivity.
Defined.





(** * Further properties of the walker *)

Lemma choice_ok {A : Type} (seq : list A) (g : rng) :
  seq ≠ [] → ∃ y g', choice seq g = Ok (y, g').
Proof.
  intros Hseq. unfold choice. destruct seq as [|x seq]; [done|]. simpl.
  destruct (lookup_lt_is_Some_2 (x :: seq)
              (draws g (cursor g) `mod` length (x :: seq))) as [y Hy].
  { apply Nat.mod_upper_bound. simpl. lia. }
  simpl in Hy. rewrite Hy. eauto.
Qed.

Lemma walk_loop_reaches fuel chain st g st' g' :
  walk_loop fuel chain st g = Some (Ok (st', g')) →
  reaches chain st g st' g'.
Proof.
  revert st g. induction fuel as [|fuel IH]; intros st g; simpl.
  - case_decide; [done|]. intros [= <- <-]. constructor.
  - case_decide as Hlen; [|intros [= <- <-]; constructor].
    destruct (walk_body chain st g) as [[st1 g1]|e] eqn:Hbody; [|done].
    intros Hloop. eapply reaches_step; eauto.
Qed.

(** The tokens a run appends can be sampled from the chain. *)
Lemma reaches_sampled chain st g st' g' :
  reaches chain st g st' g' →
  ∃ ws, tweet st' = append_words (tweet st) ws ∧ sampled chain (key st) ws.
Proof.
  induction 1 as [st g|st g st1 g1 st' g' _ Hbody _ (ws & Htweet & Hws)].
  - by exists [].
  - apply walk_body_ok in Hbody as (successors & word & Hkey & Hword & ->).
    simpl in *. exists (word :: ws). split; [done|]. simpl. eauto.
Qed.

Lemma trigram_cons (x : string) (l : list string) (a b c : string) :
  trigram (x :: l) a b c →
  (l !! 0 = Some b ∧ l !! 1 = Some c ∧ x = a) ∨ trigram l a b c.
Proof.
  intros ([|j] & Ha & Hb & Hc); simpl in *.
  - left. by injection Ha as ->.
  - right. by exists j.
Qed.

Lemma sampled_trigrams (C : list string) chain (a b : string)
    (ws : list string) :
  build_chain2 C = Ok chain → sampled chain (a, b) ws →
  ∀ x y z, trigram (a :: b :: ws) x y z → trigram C x y z.
Proof.
  intros Hb. revert a b. induction ws as [|word ws IH]; intros a b Hws x y z.
  - intros (j & _ & _ & Hz). destruct j as [|[|j]]; done.
  - destruct Hws as [(successors & Hkey & Hword) Hws]. simpl in Hws.
    intros [(Hy & Hz & Hx)|Htri]%trigram_cons.
    + simplify_eq/=.
      by apply (build_chain2_Some C chain (_, _) successors Hb Hkey).
    + by apply (IH b word).
Qed.

Lemma getitem_nonneg {A : Type} (l : list A) (i : Z) (x : A) :
  (0 ≤ i)%Z → getitem l i = Ok x → l !! Z.to_nat i = Some x.
Proof.
  intros Hi. rewrite <- (Z2Nat.id i) at 1 by done. rewrite getitem_nat.
  by destruct (l !! Z.to_nat i); intros [= ->].
Qed.

(** A start that succeeds takes two neighbours of the corpus. *)
Lemma start_bigram words g st g0 :
  start words g = Ok (st, g0) →
  bigram words (key st).1 (key st).2 ∧
  tweet st = (key st).1 +:+ " " +:+ (key st).2.
Proof.
  intros (r & key0 & key1 & Hr & H0 & H1 & ->)%start_ok. simpl.
  split; [|done]. apply randint_range in Hr.
  exists (Z.to_nat r). split; [by apply getitem_nonneg; [lia|]|].
  replace (Z.to_nat r + 1) with (Z.to_nat (r + 1)) by lia.
  apply getitem_nonneg; [lia|done].
Qed.

(** Anatomy of a normal end of [markov_tweet]. *)
Lemma markov_tweet_sampled chain words g out g' :
  markov_tweet chain words g = Some (Ok (out, g')) →
  ∃ key0 key1 ws,
    out = print (append_words (key0 +:+ " " +:+ key1) ws +:+ String LF "") ∧
    target ≤ String.length (append_words (key0 +:+ " " +:+ key1) ws) ∧
    bigram words key0 key1 ∧ sampled chain (key0, key1) ws.
Proof.
  unfold markov_tweet.
  destruct (start words g) as [[st g0]|] eqn:Hstart; [|done].
  destruct (walk_loop target chain st g0) as [[[st' g2]|e]|] eqn:Hloop;
    [|done..].
  intros [= <- <-].
  apply start_bigram in Hstart as [Hbi Htweet].
  pose proof (walk_loop_ok _ _ _ _ _ _ Hloop) as [Hlen _].
  apply walk_loop_reaches, reaches_sampled in Hloop as (ws & Hws & Hsampled).
  destruct (key st) as [key0 key1] eqn:Hkey. simpl in *.
  exists key0, key1, ws. by rewrite <- Htweet, <- Hws.
Qed.

(** X8: when [markov_tweet] ends normally on the order-2 chain of a corpus
    [C], its tweet is two neighbouring words of [words] followed by sampled
    tokens, all joined by single spaces, and any three consecutive ones of
    these tokens stand next to each other somewhere in [C]. *)
Theorem markov_tweet_trigrams (C words : list string)
    (chain : gmap (string * string) (list string)) (g : rng)
    (out : string) (g' : rng) :
  build_chain2 C = Ok chain →
  markov_tweet chain words g = Some (Ok (out, g')) →
  ∃ key0 key1 ws,
    out = print (append_words (key0 +:+ " " +:+ key1) ws +:+ String LF "") ∧
    bigram words key0 key1 ∧
    ∀ a b c, trigram (key0 :: key1 :: ws) a b c → trigram C a b c.
Proof.
  intros Hb (key0 & key1 & ws & -> & _ & Hbi & Hws)%markov_tweet_sampled.
  exists key0, key1, ws. split; [done|]. split; [done|].
  by apply (sampled_trigrams C chain).
Qed.

Lemma markov_tweet_trigrams_witness :
  ∃ chain out g',
    build_chain2 ["a"; "a"; "a"] = Ok chain ∧
    markov_tweet chain ["a"; "a"; "a"] (constant_rng 0) = Some (Ok (out, g')) ∧
    ∃ key0 key1 ws,
      out = print (append_words (key0 +:+ " " +:+ key1) ws +:+ String LF "") ∧
      bigram ["a"; "a"; "a"] key0 key1 ∧
      ∀ a b c, trigram (key0 :: key1 :: ws) a b c →
               trigram ["a"; "a"; "a"] a b c.
Proof.
  exists {[ ("a", "a") := ["a"] ]}. eexists _, _.
  split; [by vm_compute|]. split; [vm_compute; reflexivity|].
  eapply (markov_tweet_trigrams ["a"; "a"; "a"] ["a"; "a"; "a"]
            {[ ("a", "a") := ["a"] ]} (constant_rng 0));
    [by vm_compute|vm_compute; reflexivity].
Defined.

Lemma read_words_append_words (tweet : string) (ws : list string) :
  Forall is_token ws →
  read_words (append_words tweet ws) = read_words tweet ++ ws.
Proof.
  intros Hws. revert tweet.
  induction Hws as [|word ws Hword _ IH]; intros tweet; simpl.
  - by rewrite app_nil_r.
  - by rewrite IH, read_words_snoc, <- app_assoc.
Qed.

Lemma sampled_elem (C : list string) chain (k : string * string)
    (ws : list string) :
  build_chain2 C = Ok chain → sampled chain k ws → Forall (λ w, w ∈ C) ws.
Proof.
  intros Hb. revert k. induction ws as [|word ws IH]; intros k; [done|].
  intros [(successors & Hkey & Hword) Hws]. constructor; [|by eapply IH].
  apply (build_chain2_Some C chain k successors Hb Hkey) in Hword
    as (i & _ & _ & Hi).
  by eapply list_elem_of_lookup_2.
Qed.

Lemma bigram_elem (l : list string) (a b : string) :
  bigram l a b → a ∈ l ∧ b ∈ l.
Proof. intros (j & Ha & Hb). split; by eapply list_elem_of_lookup_2. Qed.

(** The words read back from what [markov_tweet] prints. *)
Lemma read_words_markov_tweet (text : string) chain g out g' :
  build_chain2 (read_words text) = Ok chain →
  markov_tweet chain (read_words text) g = Some (Ok (out, g')) →
  ∃ key0 key1 ws,
    read_words out = key0 :: key1 :: ws ∧
    bigram (read_words text) key0 key1 ∧ sampled chain (key0, key1) ws.
Proof.
  intros Hb (key0 & key1 & ws & -> & _ & Hbi & Hws)%markov_tweet_sampled.
  exists key0, key1, ws. split; [|done].
  destruct (bigram_elem _ _ _ Hbi) as [H0%read_words_elem_is_token
                                        H1%read_words_elem_is_token].
  unfold print. rewrite app_assoc_string.
  change (String LF "" +:+ String LF "") with (String LF (String LF "")).
  rewrite read_words_sep by (unfold is_separator; auto).
  rewrite read_words_append_words.
  - rewrite read_words_snoc, read_words_token by tauto.
    by rewrite app_nil_r.
  - eapply Forall_impl;
      [by apply (sampled_elem (read_words text) chain (key0, key1))|].
    intros word Hword%read_words_elem_is_token. tauto.
Qed.

(** X9: for a corpus read by the tokenizer and its order-2 chain, the words
    read back from what [markov_tweet] prints are at least two, and any
    three consecutive ones stand next to each other in the corpus. *)
Theorem markov_tweet_reads_as_corpus_trigrams (text : string)
    (chain : gmap (string * string) (list string)) (g : rng)
    (out : string) (g' : rng) :
  build_chain2 (read_words text) = Ok chain →
  markov_tweet chain (read_words text) g = Some (Ok (out, g')) →
  2 ≤ length (read_words out) ∧
  ∀ a b c, trigram (read_words out) a b c → trigram (read_words text) a b c.
Proof.
  intros Hb (key0 & key1 & ws & -> & _ & Hws)%read_words_markov_tweet;
    [|done].
  split; [simpl; lia|]. by apply (sampled_trigrams _ chain).
Qed.

Lemma markov_tweet_reads_as_corpus_trigrams_witness :
  ∃ chain out g',
    build_chain2 (read_words "a a a") = Ok chain ∧
    markov_tweet chain (read_words "a a a") (constant_rng 0)
    = Some (Ok (out, g')) ∧
    2 ≤ length (read_words out) ∧
    ∀ a b c, trigram (read_words out) a b c →
             trigram (read_words "a a a") a b c.
Proof.
  exists {[ ("a", "a") := ["a"] ]}. eexists _, _.
  split; [by vm_compute|]. split; [vm_compute; reflexivity|].
  eapply (markov_tweet_reads_as_corpus_trigrams "a a a"
            {[ ("a", "a") := ["a"] ]} (constant_rng 0));
    [by vm_compute|vm_compute; reflexivity].
Defined.

(** The two ways the loop body can fail. *)
Lemma walk_body_Raise chain st g e :
  walk_body chain st g = Raise e →
  (e = KeyError ∧ chain !! key st = None) ∨
  (e = IndexError ∧ chain !! key st = Some []).
Proof.
  unfold walk_body, dict_getitem.
  destruct (chain !! key st) as [successors|]; simpl; [|intros [= <-]; auto].
  destruct (decide (successors = [])) as [->|Hne]; [intros [= <-]; auto|].
  by destruct (choice_ok successors g Hne) as (y & g1 & ->).
Qed.

Lemma walk_loop_Raise fuel chain st g e :
  walk_loop fuel chain st g = Some (Raise e) →
  e = KeyError ∨ (e = IndexError ∧ ∃ K, chain !! K = Some []).
Proof.
  revert st g. induction fuel as [|fuel IH]; intros st g; simpl.
  - by case_decide.
  - case_decide; [|done].
    destruct (walk_body chain st g) as [[st1 g1]|e1] eqn:Hbody; [apply IH|].
    intros [= ->].
    apply walk_body_Raise in Hbody as [[-> _]|[-> ?]]; eauto.
Qed.

(** The two ways the statements before the loop can fail. *)
Lemma start_Raise words g e :
  start words g = Raise e ↔
  (e = ValueError ∧ words = []) ∨
  (e = IndexError ∧
   ∃ g', start_index words g = Ok ((Z.of_nat (length words) - 1)%Z, g')).
Proof.
  unfold start. split.
  - destruct (start_index words g) as [[r g1]|e1] eqn:Hr; simpl.
    + pose proof (randint_range _ _ _ _ _ Hr) as Hrange.
      rewrite <- (Z2Nat.id r) by lia. rewrite getitem_nat.
      destruct (lookup_lt_is_Some_2 words (Z.to_nat r)) as [key0 ->]; [lia|].
      simpl. replace (Z.of_nat (Z.to_nat r) + 1)%Z
        with (Z.of_nat (Z.to_nat r + 1)) by lia.
      rewrite getitem_nat.
      destruct (words !! (Z.to_nat r + 1)) as [key1|] eqn:H1; [done|].
      simpl. intros [= <-]. right. split; [done|]. exists g1.
      apply lookup_ge_None in H1.
      replace (Z.of_nat (length words) - 1)%Z with (Z.of_nat (Z.to_nat r))
        by lia.
      by rewrite Z2Nat.id by lia.
    + intros [= ->]. left. unfold start_index, randint in Hr.
      destruct (Z.ltb_spec (Z.of_nat (length words) - 1) 0) as [Hlt|]; [|done].
      injection Hr as <-. split; [done|].
      destruct words; [done|simpl in Hlt; lia].
  - intros [[-> ->]|[-> [g' Hr]]]; [done|].
    rewrite Hr. simpl.
    pose proof (randint_range _ _ _ _ _ Hr) as Hrange.
    replace (Z.of_nat (length words) - 1 + 1)%Z with (Z.of_nat (length words))
      by lia.
    rewrite (getitem_ge words (length words)) by done.
    replace (Z.of_nat (length words) - 1)%Z with (Z.of_nat (length words - 1))
      by lia.
    rewrite getitem_nat.
    by destruct (lookup_lt_is_Some_2 words (length words - 1)) as [x ->];
      [lia|].
Qed.

Lemma build_chain2_no_empty (C : list string) chain (K : string * string) :
  build_chain2 C = Ok chain → chain !! K ≠ Some [].
Proof. intros Hb HK. by destruct (build_chain2_Some C chain K [] Hb HK). Qed.

(** X10: with the order-2 chain of any corpus, [markov_tweet] raises
    [ValueError] exactly when [words] is empty, and [IndexError] exactly
    when the start index drawn is the last index [len(words) - 1]. *)
Theorem markov_tweet_errors (C words : list string)
    (chain : gmap (string * string) (list string)) (g : rng) :
  build_chain2 C = Ok chain →
  (markov_tweet chain words g = Some (Raise ValueError) ↔ words = []) ∧
  (markov_tweet chain words g = Some (Raise IndexError) ↔
   ∃ g', start_index words g = Ok ((Z.of_nat (length words) - 1)%Z, g')).
Proof.
  intros Hb. unfold markov_tweet.
  pose proof (start_Raise words g ValueError) as HV.
  pose proof (start_Raise words g IndexError) as HI.
  destruct (start words g) as [[st g0]|e] eqn:Hstart.
  - assert (∀ e, walk_loop target chain st g0 = Some (Raise e) → e = KeyError)
      as Hloop.
    { intros e [->|[-> [K HK]]]%walk_loop_Raise; [done|].
      by destruct (build_chain2_no_empty C chain K Hb). }
    split; split.
    + destruct (walk_loop target chain st g0) as [[[st' g']|e]|]; try done.
      intros [= ->]. by specialize (Hloop _ eq_refl).
    + intros Hw. destruct HV as [_ HV].
      by specialize (HV (or_introl (conj eq_refl Hw))).
    + destruct (walk_loop target chain st g0) as [[[st' g']|e]|]; try done.
      intros [= ->]. by specialize (Hloop _ eq_refl).
    + intros Hr. destruct HI as [_ HI].
      by specialize (HI (or_intror (conj eq_refl Hr))).
  - split.
    + split.
      * intros [= ->]. destruct HV as [HV _].
        by destruct (HV eq_refl) as [[_ ?]|[? _]].
      * intros Hw. destruct HV as [_ HV].
        by injection (HV (or_introl (conj eq_refl Hw))) as ->.
    + split.
      * intros [= ->]. destruct HI as [HI _].
        by destruct (HI eq_refl) as [[? _]|[_ ?]].
      * intros Hr. destruct HI as [_ HI].
        by injection (HI (or_intror (conj eq_refl Hr))) as ->.
Qed.

Lemma markov_tweet_errors_witness :
  build_chain2 ["a"; "b"; "c"] = Ok {[ ("a", "b") := ["c"] ]} ∧
  (markov_tweet {[ ("a", "b") := ["c"] ]} [] (constant_rng 0)
   = Some (Raise ValueError) ↔ [] = ([] : list string)) ∧
  (markov_tweet {[ ("a", "b") := ["c"] ]} [] (constant_rng 0)
   = Some (Raise IndexError) ↔
   ∃ g', start_index [] (constant_rng 0)
         = Ok ((Z.of_nat (length ([] : list string)) - 1)%Z, g')).
Proof.
  assert (build_chain2 ["a"; "b"; "c"] = Ok {[ ("a", "b") := ["c"] ]}) as H
    by (by vm_compute).
  split; [exact H|].
  exact (markov_tweet_errors ["a"; "b"; "c"] [] _ (constant_rng 0) H).
Defined.

(** X11: when the start index drawn is at most [len(words) - 3], the start
    context is a key of the order-2 chain of [words] and the first iteration
    of the loop raises nothing. *)
Theorem start_within_windows (words : list string)
    (chain : gmap (string * string) (list string)) (g : rng)
    (r : Z) (g0 : rng) :
  build_chain2 words = Ok chain →
  start_index words g = Ok (r, g0) →
  (r + 2 < Z.of_nat (length words))%Z →
  ∃ st, start words g = Ok (st, g0) ∧
        is_Some (chain !! key st) ∧
        ∃ st1 g1, walk_body chain st g0 = Ok (st1, g1).
Proof.
  intros Hb Hr Hlt. pose proof (randint_range _ _ _ _ _ Hr) as Hrange.
  destruct (lookup_lt_is_Some_2 words (Z.to_nat r)) as [key0 H0]; [lia|].
  destruct (lookup_lt_is_Some_2 words (Z.to_nat r + 1)) as [key1 H1]; [lia|].
  exists (Walk (key0, key1) (key0 +:+ " " +:+ key1) None).
  assert (is_Some (chain !! (key0, key1))) as [successors Hkey].
  { apply (build_chain2_is_Some words chain (key0, key1) Hb).
    exists (Z.to_nat r). simpl. split; [done|]. split; [done|lia]. }
  split; [|split; [by eexists|]].
  - unfold start. rewrite Hr. simpl.
    rewrite <- (Z2Nat.id r) by lia. rewrite getitem_nat, H0. simpl.
    replace (Z.of_nat (Z.to_nat r) + 1)%Z with (Z.of_nat (Z.to_nat r + 1))
      by lia.
    by rewrite getitem_nat, H1.
  - unfold walk_body, dict_getitem. simpl. rewrite Hkey. simpl.
    destruct (choice_ok successors g0) as (word & g1 & ->); [|by eauto].
    intros ->. by destruct (build_chain2_no_empty words chain (key0, key1) Hb).
Qed.

Lemma start_within_windows_witness :
  ∃ st, start ["a"; "b"; "c"] (constant_rng 0)
        = Ok (st, Rng (λ _, 0) 1) ∧
        is_Some (({[ ("a", "b") := ["c"] ]}
                  : gmap (string * string) (list string)) !! key st) ∧
        ∃ st1 g1, walk_body {[ ("a", "b") := ["c"] ]} st (Rng (λ _, 0) 1)
                  = Ok (st1, g1).
Proof.
  apply (start_within_windows ["a"; "b"; "c"] _ (constant_rng 0) 0).
  - by vm_compute.
  - reflexivity.
  - simpl. lia.
Defined.

Lemma walk_body_draw chain st g st1 g1 :
  walk_body chain st g = Ok (st1, g1) →
  draws g1 = draws g ∧ cursor g1 = S (cursor g).
Proof.
  unfold walk_body, dict_getitem.
  destruct (chain !! key st) as [successors|]; [|done]. simpl.
  unfold choice. destruct successors as [|x l]; [done|]. simpl.
  destruct (_ !! _); [|done]. simpl. by intros [= _ <-].
Qed.

Lemma walk_loop_draws fuel chain st g st' g' :
  walk_loop fuel chain st g = Some (Ok (st', g')) →
  draws g' = draws g ∧
  cursor g ≤ cursor g' ≤ cursor g + (target - String.length (tweet st)).
Proof.
  revert st g. induction fuel as [|fuel IH]; intros st g; simpl.
  - case_decide; [done|]. intros [= <- <-]. split; [done|lia].
  - case_decide as Hlen; [|intros [= <- <-]; split; [done|lia]].
    destruct (walk_body chain st g) as [[st1 g1]|e] eqn:Hbody; [|done].
    intros [Hd Hc]%IH.
    pose proof (walk_body_longer _ _ _ _ _ Hbody).
    apply walk_body_draw in Hbody as [Hd1 Hc1].
    split; [congruence|lia].
Qed.

Lemma start_draw words g st g0 :
  start words g = Ok (st, g0) →
  draws g0 = draws g ∧ cursor g0 = S (cursor g) ∧
  1 ≤ String.length (tweet st).
Proof.
  intros (r & key0 & key1 & Hr & _ & _ & ->)%start_ok. simpl.
  unfold start_index, randint in Hr. destruct (_ <? _)%Z; [done|].
  simpl in Hr. injection Hr as _ <-. simpl.
  split; [done|]. split; [done|].
  rewrite !length_app_string. simpl. lia.
Qed.

(** X12: [markov_tweet] always ends: its loop runs fewer than 140 times,
    because every iteration makes the tweet longer; a call that ends
    normally has taken at least one and at most 140 outcomes from the random
    source. *)
Theorem markov_tweet_terminates
    (chain : gmap (string * string) (list string)) (words : list string)
    (g : rng) :
  is_Some (markov_tweet chain words g) ∧
  ∀ out g', markov_tweet chain words g = Some (Ok (out, g')) →
            draws g' = draws g ∧ cursor g < cursor g' ≤ cursor g + target.
Proof.
  unfold markov_tweet.
  destruct (start words g) as [[st g0]|] eqn:Hstart; [|by eauto].
  destruct (walk_loop_total target chain st g0) as [res Hres]; [lia|].
  rewrite Hres. split; [by destruct res as [[]|]; eauto|].
  intros out g'. destruct res as [[st' g2]|]; [|done]. intros [= _ <-].
  apply start_draw in Hstart as (Hd0 & Hc0 & Hlen).
  apply walk_loop_draws in Hres as [Hd Hc].
  split; [congruence|]. unfold target in *. lia.
Qed.

Lemma markov_tweet_terminates_witness :
  ∃ out g',
    markov_tweet {[ ("a", "a") := ["a"] ]} ["a"; "a"; "a"] (constant_rng 0)
    = Some (Ok (out, g')) ∧
    draws g' = draws (constant_rng 0) ∧
    cursor (constant_rng 0) < cursor g' ≤ cursor (constant_rng 0) + target.
Proof.
  eexists _, _. split; [vm_compute; reflexivity|].
  eapply (proj2 (markov_tweet_terminates
                   {[ ("a", "a") := ["a"] ]} ["a"; "a"; "a"] (constant_rng 0))).
  vm_compute. reflexivity.
Defined.

Section recurring_end.
(** A corpus whose last two words also stand next to each other earlier. *)
Context (words : list string) (chain : gmap (string * string) (list string)).
Hypothesis Hchain : build_chain2 words = Ok chain.
Hypothesis Hrecur :
  ∃ i, i + 2 < length words ∧
       words !! i = words !! (length words - 2) ∧
       words !! (i + 1) = words !! (length words - 1).

(** Every pair of neighbours is then a key of the chain. *)
Lemma bigram_is_key (a b : string) :
  bigram words a b → is_Some (chain !! (a, b)).
Proof.
  intros (j & Ha & Hb).
  apply (build_chain2_is_Some words chain (a, b) Hchain). simpl.
  destruct (decide (j + 2 < length words)) as [Hj|Hj]; [by exists j|].
  pose proof (lookup_lt_Some _ _ _ Hb) as Hlt.
  destruct Hrecur as (i & Hi & Hi0 & Hi1). exists i.
  replace (length words - 2) with j in Hi0 by lia.
  replace (length words - 1) with (j + 1) in Hi1 by lia.
  by rewrite Hi0, Hi1.
Qed.

Lemma walk_body_bigram st g :
  bigram words (key st).1 (key st).2 →
  ∃ st1 g1, walk_body chain st g = Ok (st1, g1) ∧
            bigram words (key st1).1 (key st1).2.
Proof.
  intros Hbi. destruct (key st) as [a b] eqn:Hkey. simpl in Hbi.
  destruct (bigram_is_key a b Hbi) as [successors Hsucc].
  pose proof (build_chain2_Some words chain (a, b) successors Hchain Hsucc)
    as [Hne Hmem].
  destruct (choice_ok successors g Hne) as (word & g1 & Hchoice).
  exists (Walk (b, word) (tweet st +:+ " " +:+ word) (Some word)), g1.
  split.
  - unfold walk_body, dict_getitem. rewrite Hkey, Hsucc. simpl.
    by rewrite Hchoice.
  - simpl. apply choice_elem, Hmem in Hchoice as (i & _ & Hi1 & Hi2).
    exists (i + 1). simpl in *. split; [done|].
    by replace (i + 1 + 1) with (i + 2) by lia.
Qed.

Lemma walk_loop_bigram fuel st g res :
  bigram words (key st).1 (key st).2 →
  walk_loop fuel chain st g = Some res → ∃ st' g', res = Ok (st', g').
Proof.
  revert st g. induction fuel as [|fuel IH]; intros st g Hbi; simpl.
  - case_decide; [done|]. intros [= <-]. eauto.
  - case_decide; [|intros [= <-]; eauto].
    destruct (walk_body_bigram st g Hbi) as (st1 & g1 & -> & Hbi1).
    by apply IH.
Qed.

End recurring_end.

(** X13: if the last two words of the corpus also stand next to each other
    earlier in it, then [markov_tweet], run on the corpus and its order-2
    chain, ends normally whenever the start index drawn is not the last
    index: no context the walk can reach is missing from the chain. *)
Theorem markov_tweet_succeeds (words : list string)
    (chain : gmap (string * string) (list string)) (g : rng)
    (r : Z) (g0 : rng) :
  build_chain2 words = Ok chain →
  (∃ i, i + 2 < length words ∧
        words !! i = words !! (length words - 2) ∧
        words !! (i + 1) = words !! (length words - 1)) →
  start_index words g = Ok (r, g0) →
  (r + 1 < Z.of_nat (length words))%Z →
  ∃ out g', markov_tweet chain words g = Some (Ok (out, g')).
Proof.
  intros Hb Hrecur Hr Hlt. unfold markov_tweet.
  destruct (start words g) as [[st g1]|e] eqn:Hstart.
  - destruct (walk_loop_total target chain st g1) as [res Hres]; [lia|].
    rewrite Hres.
    destruct (walk_loop_bigram words chain Hb Hrecur _ _ _ _
                (proj1 (start_bigram _ _ _ _ Hstart)) Hres)
      as (st' & g' & ->).
    eauto.
  - apply start_Raise in Hstart as [[_ ->]|[_ [g' Hr']]].
    + by destruct Hrecur as (i & Hi & _); simpl in Hi; lia.
    + rewrite Hr in Hr'. injection Hr' as -> _. lia.
Qed.

Lemma markov_tweet_succeeds_witness :
  ∃ out g',
    markov_tweet {[ ("a", "b") := ["a"]; ("b", "a") := ["b"] ]}
                 ["a"; "b"; "a"; "b"] (constant_rng 2) = Some (Ok (out, g')).
Proof.
  apply (markov_tweet_succeeds ["a"; "b"; "a"; "b"] _ (constant_rng 2)
           2 (Rng (λ _, 2) 1)).
  - by vm_compute.
  - exists 0. simpl. split; [lia|done].
  - reflexivity.
  - simpl. lia.
Defined.

(** * Properties of the order-1 walker *)

Lemma walk1_body_ok chain st g st1 g1 :
  walk1_body chain st g = Ok (st1, g1) →
  ∃ successors word,
    chain !! w1 st = Some successors ∧ word ∈ successors ∧
    st1 = Walk1 word (tweet1 st +:+ " " +:+ word) (Some word).
Proof.
  unfold walk1_body, dict_getitem.
  destruct (chain !! w1 st) as [successors|]; [|done]. simpl.
  destruct (choice successors g) as [[word g2]|] eqn:Hc; [|done]. simpl.
  intros [= <- _]. exists successors, word. eauto using choice_elem.
Qed.

Lemma walk1_body_Raise chain st g e :
  walk1_body chain st g = Raise e →
  (e = KeyError ∧ chain !! w1 st = None) ∨
  (e = IndexError ∧ chain !! w1 st = Some []).
Proof.
  unfold walk1_body, dict_getitem.
  destruct (chain !! w1 st) as [successors|]; simpl; [|intros [= <-]; auto].
  destruct (decide (successors = [])) as [->|Hne]; [intros [= <-]; auto|].
  by destruct (choice_ok successors g Hne) as (y & g1 & ->).
Qed.

Lemma walk1_body_longer chain st g st1 g1 :
  walk1_body chain st g = Ok (st1, g1) →
  String.length (tweet1 st) < String.length (tweet1 st1).
Proof.
  intros (? & word & _ & _ & ->)%walk1_body_ok. simpl.
  rewrite !length_app_string. simpl. lia.
Qed.

Lemma walk1_loop_total fuel chain st g :
  target - String.length (tweet1 st) ≤ fuel →
  is_Some (walk1_loop fuel chain st g).
Proof.
  revert st g. induction fuel as [|fuel IH]; intros st g Hfuel; simpl.
  - rewrite decide_False by lia. eauto.
  - case_decide; [|eauto].
    destruct (walk1_body chain st g) as [[st1 g1]|] eqn:Hbody; [|eauto].
    apply IH. apply walk1_body_longer in Hbody. lia.
Qed.

(** What is known when the order-1 loop ends normally. *)
Lemma walk1_loop_sampled fuel chain st g st' g' :
  walk1_loop fuel chain st g = Some (Ok (st', g')) →
  target ≤ String.length (tweet1 st') ∧
  ∃ ws, tweet1 st' = append_words (tweet1 st) ws ∧ sampled1 chain (w1 st) ws.
Proof.
  revert st g. induction fuel as [|fuel IH]; intros st g; simpl.
  - case_decide; [done|]. intros [= <- <-]. split; [lia|by exists []].
  - case_decide as Hlen; [|intros [= <- <-]; split; [lia|by exists []]].
    destruct (walk1_body chain st g) as [[st1 g1]|e] eqn:Hbody; [|done].
    intros (Hge & ws & Htweet & Hws)%IH.
    apply walk1_body_ok in Hbody as (successors & word & Hkey & Hword & ->).
    simpl in *. split; [done|]. exists (word :: ws). simpl. eauto.
Qed.

Lemma walk1_loop_Raise fuel chain st g e :
  walk1_loop fuel chain st g = Some (Raise e) →
  e = KeyError ∨ (e = IndexError ∧ ∃ K, chain !! K = Some []).
Proof.
  revert st g. induction fuel as [|fuel IH]; intros st g; simpl.
  - by case_decide.
  - case_decide; [|done].
    destruct (walk1_body chain st g) as [[st1 g1]|e1] eqn:Hbody; [apply IH|].
    intros [= ->].
    apply walk1_body_Raise in Hbody as [[-> _]|[-> ?]]; eauto.
Qed.

Lemma start1_ok words g st g0 :
  start1 words g = Ok (st, g0) →
  ∃ w, w ∈ words ∧ st = Walk1 w w None.
Proof.
  unfold start1. destruct (choice words g) as [[w g1]|] eqn:Hc; [|done].
  simpl. intros [= <- _]. exists w. eauto using choice_elem.
Qed.

Lemma start1_Raise words g e :
  start1 words g = Raise e ↔ e = IndexError ∧ words = [].
Proof.
  unfold start1. split.
  - destruct (decide (words = [])) as [->|Hne]; [by intros [= <-]|].
    by destruct (choice_ok words g Hne) as (w & g1 & ->).
  - by intros [-> ->].
Qed.

Lemma bigram_cons (x : string) (l : list string) (a b : string) :
  bigram (x :: l) a b → (l !! 0 = Some b ∧ x = a) ∨ bigram l a b.
Proof.
  intros ([|j] & Ha & Hb); simpl in *.
  - left. by injection Ha as ->.
  - right. by exists j.
Qed.

Lemma sampled1_bigrams (C : list string) chain (a : string) (ws : list string) :
  build_chain1 C = Ok chain → sampled1 chain a ws →
  ∀ x y, bigram (a :: ws) x y → bigram C x y.
Proof.
  intros Hb. revert a. induction ws as [|word ws IH]; intros a Hws x y.
  - intros (j & _ & Hy). destruct j as [|j]; done.
  - destruct Hws as [(successors & Hkey & Hword) Hws].
    intros [(Hy & Hx)|Hbi]%bigram_cons.
    + simplify_eq/=.
      by apply (build_chain1_Some C chain _ successors Hb Hkey).
    + by apply (IH word).
Qed.

Lemma sampled1_elem (C : list string) chain (k : string) (ws : list string) :
  build_chain1 C = Ok chain → sampled1 chain k ws → Forall (λ w, w ∈ C) ws.
Proof.
  intros Hb. revert k. induction ws as [|word ws IH]; intros k; [done|].
  intros [(successors & Hkey & Hword) Hws]. constructor; [|by eapply IH].
  apply (build_chain1_Some C chain k successors Hb Hkey) in Hword
    as (i & _ & Hi).
  by eapply list_elem_of_lookup_2.
Qed.

Lemma build_chain1_no_empty (C : list string) chain (K : string) :
  build_chain1 C = Ok chain → chain !! K ≠ Some [].
Proof. intros Hb HK. by destruct (build_chain1_Some C chain K [] Hb HK). Qed.

(** Anatomy of a normal end of the cell. *)
Lemma tweet_order1_sampled chain words g out g' :
  tweet_order1 chain words g = Some (Ok (out, g')) →
  ∃ w ws,
    out = print (append_words w ws) ∧
    target ≤ String.length (append_words w ws) ∧
    w ∈ words ∧ sampled1 chain w ws.
Proof.
  unfold tweet_order1.
  destruct (start1 words g) as [[st g0]|] eqn:Hstart; [|done].
  destruct (walk1_loop target chain st g0) as [[[st' g2]|e]|] eqn:Hloop;
    [|done..].
  intros [= <- <-].
  apply start1_ok in Hstart as (w & Hw & ->).
  apply walk1_loop_sampled in Hloop as (Hlen & ws & Hws & Hsampled).
  simpl in *. exists w, ws. by rewrite <- Hws.
Qed.

(** X14: when the order-1 cell ends normally on the order-1 chain of a
    corpus [C], what it prints is at least 140 characters of words joined by
    single spaces, followed by a newline; the first word is a word of
    [words] and any two consecutive words stand next to each other in
    [C]. *)
Theorem tweet_order1_bigrams (C words : list string)
    (chain : gmap string (list string)) (g : rng) (out : string) (g' : rng) :
  build_chain1 C = Ok chain →
  tweet_order1 chain words g = Some (Ok (out, g')) →
  ∃ w ws,
    out = print (append_words w ws) ∧
    target ≤ String.length (append_words w ws) ∧
    w ∈ words ∧
    ∀ a b, bigram (w :: ws) a b → bigram C a b.
Proof.
  intros Hb (w & ws & -> & Hlen & Hw & Hws)%tweet_order1_sampled.
  exists w, ws. repeat (split; [done|]). by apply (sampled1_bigrams C chain).
Qed.

Lemma tweet_order1_bigrams_witness :
  ∃ out g',
    tweet_order1 {[ "a" := ["a"] ]} ["a"; "a"] (constant_rng 0)
    = Some (Ok (out, g')) ∧
    ∃ w ws,
      out = print (append_words w ws) ∧
      target ≤ String.length (append_words w ws) ∧
      w ∈ ["a"; "a"] ∧
      ∀ a b, bigram (w :: ws) a b → bigram ["a"; "a"] a b.
Proof.
  eexists _, _. split; [vm_compute; reflexivity|].
  eapply (tweet_order1_bigrams ["a"; "a"] ["a"; "a"] {[ "a" := ["a"] ]}
            (constant_rng 0));
    [by vm_compute|vm_compute; reflexivity].
Defined.

(** X15: with the order-1 chain of any corpus, the order-1 cell always
    ends; it raises [IndexError] exactly when [words] is empty, and
    otherwise ends normally or raises [KeyError]. *)
Theorem tweet_order1_errors (C words : list string)
    (chain : gmap string (list string)) (g : rng) :
  build_chain1 C = Ok chain →
  (tweet_order1 chain words g = Some (Raise IndexError) ↔ words = []) ∧
  (words ≠ [] →
   (∃ out g', tweet_order1 chain words g = Some (Ok (out, g'))) ∨
   tweet_order1 chain words g = Some (Raise KeyError)).
Proof.
  intros Hb. unfold tweet_order1.
  pose proof (start1_Raise words g) as Hstart1.
  destruct (start1 words g) as [[st g0]|e] eqn:Hstart.
  - destruct (walk1_loop_total target chain st g0) as [res Hres]; [lia|].
    rewrite Hres. destruct res as [[st' g']|e].
    + split; [|by eauto]. split; [done|].
      intros Hw. by pose proof (proj2 (Hstart1 IndexError) (conj eq_refl Hw)).
    + apply walk1_loop_Raise in Hres as [->|[-> [K HK]]].
      * split; [|by auto]. split; [done|].
        intros Hw. by pose proof (proj2 (Hstart1 IndexError) (conj eq_refl Hw)).
      * by destruct (build_chain1_no_empty C chain K Hb).
  - destruct (proj1 (Hstart1 e) eq_refl) as [-> ->]. by split.
Qed.

Lemma tweet_order1_errors_witness :
  build_chain1 ["a"; "b"] = Ok {[ "a" := ["b"] ]} ∧
  ["a"; "b"] ≠ [] ∧
  ((∃ out g', tweet_order1 {[ "a" := ["b"] ]} ["a"; "b"] (constant_rng 0)
              = Some (Ok (out, g'))) ∨
   tweet_order1 {[ "a" := ["b"] ]} ["a"; "b"] (constant_rng 0)
   = Some (Raise KeyError)).
Proof.
  assert (build_chain1 ["a"; "b"] = Ok {[ "a" := ["b"] ]}) as H
    by (by vm_compute).
  split; [exact H|]. split; [discriminate|].
  apply (proj2 (tweet_order1_errors ["a"; "b"] ["a"; "b"] _ (constant_rng 0) H)).
  discriminate.
Defined.

Section recurring_last.
(** A corpus whose last word also occurs earlier. *)
Context (words : list string) (chain : gmap string (list string)).
Hypothesis Hchain : build_chain1 words = Ok chain.
Hypothesis Hrecur :
  ∃ i, i + 1 < length words ∧ words !! i = last words.

(** Every word is then a key of the chain. *)
Lemma word_is_key (a : string) : a ∈ words → is_Some (chain !! a).
Proof.
  intros [j Ha]%list_elem_of_lookup_1.
  apply (build_chain1_is_Some words chain a Hchain).
  destruct (decide (j + 1 < length words)) as [Hj|Hj]; [by exists j|].
  pose proof (lookup_lt_Some _ _ _ Ha) as Hlt.
  destruct Hrecur as (i & Hi & Hi0). exists i. split; [|done].
  rewrite Hi0, last_lookup. by replace (pred (length words)) with j by lia.
Qed.

Lemma walk1_body_word st g :
  w1 st ∈ words →
  ∃ st1 g1, walk1_body chain st g = Ok (st1, g1) ∧ w1 st1 ∈ words.
Proof.
  intros Hin. destruct (word_is_key _ Hin) as [successors Hsucc].
  pose proof (build_chain1_Some words chain _ successors Hchain Hsucc)
    as [Hne Hmem].
  destruct (choice_ok successors g Hne) as (word & g1 & Hchoice).
  exists (Walk1 word (tweet1 st +:+ " " +:+ word) (Some word)), g1.
  split.
  - unfold walk1_body, dict_getitem. rewrite Hsucc. simpl.
    by rewrite Hchoice.
  - simpl. apply choice_elem, Hmem in Hchoice as (i & _ & Hi1).
    by eapply list_elem_of_lookup_2.
Qed.

Lemma walk1_loop_word fuel st g res :
  w1 st ∈ words →
  walk1_loop fuel chain st g = Some res → ∃ st' g', res = Ok (st', g').
Proof.
  revert st g. induction fuel as [|fuel IH]; intros st g Hin; simpl.
  - case_decide; [done|]. intros [= <-]. eauto.
  - case_decide; [|intros [= <-]; eauto].
    destruct (walk1_body_word st g Hin) as (st1 & g1 & -> & Hin1).
    by apply IH.
Qed.

End recurring_last.

(** X16: if the last word of the corpus also occurs earlier in it, the
    order-1 cell, run on the corpus and its order-1 chain, ends normally
    whatever the random source gives. *)
Theorem tweet_order1_succeeds (words : list string)
    (chain : gmap string (list string)) (g : rng) :
  build_chain1 words = Ok chain →
  (∃ i, i + 1 < length words ∧ words !! i = last words) →
  ∃ out g', tweet_order1 chain words g = Some (Ok (out, g')).
Proof.
  intros Hb Hrecur. unfold tweet_order1.
  destruct (start1 words g) as [[st g1]|e] eqn:Hstart.
  - destruct (walk1_loop_total target chain st g1) as [res Hres]; [lia|].
    rewrite Hres. apply start1_ok in Hstart as (w & Hw & ->).
    destruct (walk1_loop_word words chain Hb Hrecur _ (Walk1 w w None) _ _
                Hw Hres) as (st' & g' & ->).
    eauto.
  - apply start1_Raise in Hstart as [_ ->].
    by destruct Hrecur as (i & Hi & _); simpl in Hi; lia.
Qed.

Lemma tweet_order1_succeeds_witness :
  ∃ out g',
    tweet_order1 {[ "a" := ["b"]; "b" := ["a"] ]} ["a"; "b"; "a"]
                 (constant_rng 2) = Some (Ok (out, g')).
Proof.
  apply (tweet_order1_succeeds ["a"; "b"; "a"] _ (constant_rng 2)).
  - by vm_compute.
  - exists 0. simpl. split; [lia|done].
Defined.

Lemma walk1_loop_KeyError_now fuel chain st g :
  0 < fuel → String.length (tweet1 st) < target → chain !! w1 st = None →
  walk1_loop fuel chain st g = Some (Raise KeyError).
Proof.
  intros Hfuel Hlen Hkey. destruct fuel as [|fuel]; [lia|]. simpl.
  rewrite decide_True by done.
  unfold walk1_body, dict_getitem. by rewrite Hkey.
Qed.

Lemma choice_at {A : Type} (l1 : list A) (x : A) (l2 : list A) :
  choice (l1 ++ x :: l2) (constant_rng (length l1))
  = Ok (x, Rng (λ _, length l1) 1).
Proof.
  unfold choice, constant_rng. destruct (l1 ++ x :: l2) eqn:Hl.
  { by destruct l1. }
  rewrite <- Hl. simpl.
  rewrite Nat.mod_small by (rewrite length_app; simpl; lia).
  by rewrite list_lookup_middle.
Qed.

(** X17: the dead end of the order-1 cell: if the last word of the corpus
    occurs nowhere else in it and is shorter than 140 characters, some
    outcome of the random source (choosing that word as the start) makes
    the cell raise [KeyError]. *)
Theorem tweet_order1_dead_end (pre : list string) (final : string)
    (chain : gmap string (list string)) :
  build_chain1 (pre ++ [final]) = Ok chain →
  final ∉ pre → String.length final < target →
  ∃ g, tweet_order1 chain (pre ++ [final]) g = Some (Raise KeyError).
Proof.
  intros Hb Hfinal Hlen. exists (constant_rng (length pre)).
  assert (start1 (pre ++ [final]) (constant_rng (length pre))
          = Ok (Walk1 final final None, Rng (λ _, length pre) 1)) as Hstart
    by (unfold start1; by rewrite choice_at).
  unfold tweet_order1. rewrite Hstart.
  rewrite walk1_loop_KeyError_now; [done|unfold target; lia|done|].
  cbn [w1]. apply eq_None_not_Some.
  intros (i & Hi & Hlt)%(build_chain1_is_Some _ chain final Hb).
  rewrite length_app in Hlt. simpl in Hlt.
  rewrite lookup_app_l in Hi by lia.
  apply Hfinal. by eapply list_elem_of_lookup_2.
Qed.

Lemma tweet_order1_dead_end_witness :
  ∃ g, tweet_order1 {[ "a" := ["b"]; "b" := ["c"] ]} (["a"; "b"] ++ ["c"]) g
       = Some (Raise KeyError).
Proof.
  apply (tweet_order1_dead_end ["a"; "b"] "c").
  - by vm_compute.
  - intros H. apply list_elem_of_In in H. simpl in H.
    by destruct H as [?|[?|[]]].
  - vm_compute. lia.
Defined.

Lemma walk_loop_KeyError_now fuel chain st g :
  0 < fuel → String.length (tweet st) < target → chain !! key st = None →
  walk_loop fuel chain st g = Some (Raise KeyError).
Proof.
  intros Hfuel Hlen Hkey. destruct fuel as [|fuel]; [lia|]. simpl.
  rewrite decide_True by done.
  unfold walk_body, dict_getitem. by rewrite Hkey.
Qed.

(** X18: the dead end of [markov_tweet]: if the last two words of the
    corpus stand next to each other nowhere else in it and make a start
    tweet shorter than 140 characters, the start index [len(words) - 2]
    leads to [KeyError] in the first iteration. *)
Theorem markov_tweet_dead_end (pre : list string) (a b : string)
    (chain : gmap (string * string) (list string)) :
  build_chain2 (pre ++ [a; b]) = Ok chain →
  ¬ bigram (pre ++ [a]) a b →
  String.length (a +:+ " " +:+ b) < target →
  ∃ g g',
    start_index (pre ++ [a; b]) g = Ok (Z.of_nat (length pre), g') ∧
    markov_tweet chain (pre ++ [a; b]) g = Some (Raise KeyError).
Proof.
  intros Hb Hnew Hlen. exists (constant_rng (length pre)).
  assert (start_index (pre ++ [a; b]) (constant_rng (length pre))
          = Ok (Z.of_nat (length pre), Rng (λ _, length pre) 1)) as Hr.
  { unfold start_index, randint, constant_rng. rewrite length_app. simpl.
    destruct (Z.ltb_spec (Z.of_nat (length pre + 2) - 1) 0) as [|_]; [lia|].
    do 2 f_equal. rewrite Z.mod_small; lia. }
  eexists. split; [exact Hr|].
  assert (start (pre ++ [a; b]) (constant_rng (length pre))
          = Ok (Walk (a, b) (a +:+ " " +:+ b) None, Rng (λ _, length pre) 1))
    as Hstart.
  { unfold start. rewrite Hr. simpl.
    replace (Z.of_nat (length pre) + 1)%Z with (Z.of_nat (length pre + 1))
      by lia.
    rewrite !getitem_nat.
    rewrite (list_lookup_middle pre [b] a (length pre)) by done.
    change (pre ++ [a; b]) with (pre ++ [a] ++ [b]). rewrite app_assoc.
    by rewrite (list_lookup_middle (pre ++ [a]) [] b (length pre + 1))
      by (rewrite length_app; simpl; lia). }
  unfold markov_tweet. rewrite Hstart.
  rewrite walk_loop_KeyError_now; [done|unfold target; lia|done|].
  cbn [key]. apply eq_None_not_Some.
  intros (i & Hi0 & Hi1 & Hlt)%(build_chain2_is_Some _ chain (a, b) Hb).
  simpl in *. rewrite length_app in Hlt. simpl in Hlt.
  apply Hnew. exists i.
  change (pre ++ [a; b]) with (pre ++ [a] ++ [b]) in Hi0, Hi1.
  rewrite app_assoc in Hi0, Hi1.
  rewrite lookup_app_l in Hi0 by (rewrite length_app; simpl; lia).
  rewrite lookup_app_l in Hi1 by (rewrite length_app; simpl; lia).
  done.
Qed.

Lemma markov_tweet_dead_end_witness :
  ∃ g g',
    start_index (["a"] ++ ["b"; "c"]) g = Ok (Z.of_nat (length ["a"]), g') ∧
    markov_tweet {[ ("a", "b") := ["c"] ]} (["a"] ++ ["b"; "c"]) g
    = Some (Raise KeyError).
Proof.
  apply (markov_tweet_dead_end ["a"] "b" "c").
  - by vm_compute.
  - intros (j & Ha & Hb). by destruct j as [|[|[|j]]].
  - vm_compute. lia.
Defined.
